(** * The polling client of video-translation-client/client.js

    A shallow embedding of [defaultPollingStrategy] and of the class
    [VideoTranslationClient] (constructor, [getStatus], [waitForCompletion],
    [_sleep]), followed by the properties of the polling loop.

    Conventions of the embedding.
    - JavaScript numbers that the client handles (delays, attempt counts,
      timestamps, [remainingSeconds]) are integers, modelled as [Z]; doubling
      an integer is exact in IEEE double arithmetic as long as the result stays
      finite, which is the range this development speaks about.
    - [Date.now()] and [axios.get] are inputs from the outside world: an
      environment [Env] gives the successive clock readings and the result of
      each HTTP request.  Nothing is assumed about how the clock advances.
    - The observable effects are recorded in a trace: each HTTP request and
      each call of [_sleep] with the duration it was given.  What the console
      shows is left out; the one thing a logging statement can do to the
      control flow, failing to turn a value of the response into a string
      (line 95), is kept.
    - [waitForCompletion] is a loop that need not terminate (a transport that
      always fails together with a clock that stands still), so the loop takes
      a bound on the number of iterations and reports [OutOfFuel] when the
      bound is reached. *)

From Stdlib Require Import ZArith List String Ascii Bool Lia DecimalString.
From Stdlib Require Import QArith Qround.
Import ListNotations.

Local Open Scope Z_scope.

Set Warnings "-register-all".

Notation "s1 +++ s2" := (String.append s1 s2)
  (at level 60, right associativity).

(** ** JavaScript values *)

Module Js.

(** The values a parsed JSON body or a hint object can be.  An object is
    given by its own properties, each name listed once; an array by its
    elements. *)
Inductive JsValue : Type :=
| JsUndefined
| JsNull
| JsBool (b : bool)
| JsNumber (n : Z)
| JsString (s : string)
| JsObject (props : list (string * JsValue))
| JsArray (elems : list JsValue).

Fixpoint lookup_prop {A : Type} (dflt : A) (key : string)
         (props : list (string * A)) : A :=
  match props with
  | [] => dflt
  | (k, v) :: rest => if String.eqb key k then v else lookup_prop dflt key rest
  end.

(** [v.key]: the property of an object, [undefined] when the object lacks it
    and for the primitives and the arrays (none of which has a property named
    [result] or [remainingSeconds]). *)
Definition get_prop (v : JsValue) (key : string) : JsValue :=
  match v with
  | JsObject props => lookup_prop JsUndefined key props
  | _ => JsUndefined
  end.

(** ToBoolean. *)
Definition truthy (v : JsValue) : bool :=
  match v with
  | JsUndefined | JsNull => false
  | JsBool b => b
  | JsNumber n => negb (n =? 0)
  | JsString s => negb (String.eqb s EmptyString)
  | JsObject _ | JsArray _ => true
  end.

(** [typeof v === 'number'] *)
Definition typeof_is_number (v : JsValue) : bool :=
  match v with
  | JsNumber _ => true
  | _ => false
  end.

(** [v < k] for a value already known to be a number. *)
Definition number_lt (v : JsValue) (k : Z) : bool :=
  match v with
  | JsNumber n => n <? k
  | _ => false
  end.

(** [v === s] for a string literal [s]. *)
Definition strict_eq_string (v : JsValue) (s : string) : bool :=
  match v with
  | JsString s' => String.eqb s' s
  | _ => false
  end.

(** [v === null || v === undefined] *)
Definition nullish (v : JsValue) : bool :=
  match v with
  | JsUndefined | JsNull => true
  | _ => false
  end.

(** [v ?? d] on values. *)
Definition nullish_or (v d : JsValue) : JsValue :=
  if nullish v then d else v.

(** Whether an object has an own property of that name. *)
Definition has_own_property (key : string) (props : list (string * JsValue))
  : bool :=
  existsb (fun p => String.eqb key (fst p)) props.

(** Whether turning [v] into a string, as a template literal does, throws a
    TypeError.  The primitives always convert.  An object parsed from JSON
    converts through [Object.prototype.toString] unless an own property
    named [toString] hides it: that property is not a function, and
    [valueOf] gives back the object, so the conversion fails.  An array
    converts by joining its elements, [null] and [undefined] as the empty
    string and the others converted in turn. *)
Fixpoint string_conversion_throws (v : JsValue) : bool :=
  match v with
  | JsObject props => has_own_property "toString" props
  | JsArray elems =>
      (fix any_throws (l : list JsValue) : bool :=
         match l with
         | [] => false
         | x :: rest => string_conversion_throws x || any_throws rest
         end) elems
  | _ => false
  end.

(** The double nearest to the integer [x] (ties to the even mantissa), for
    [x] of a size that doubles reach: the integers up to 2^53 in absolute
    value are doubles, beyond them the last [e] bits are rounded away, where
    [e] is what the length of [x] exceeds 53 bits by. *)
Definition round_to_double (x : Z) : Z :=
  let a := Z.abs x in
  let e := Z.log2 a - 52 in
  if e <=? 0 then x
  else
    let q := a / 2 ^ e in
    let r := a mod 2 ^ e in
    let half := 2 ^ (e - 1) in
    let q' :=
      if r <? half then q
      else if half <? r then q + 1
      else if Z.even q then q
      else q + 1 in
    Z.sgn x * (q' * 2 ^ e).

(** [o ?? d] on an optional field of the options object. *)
Definition coalesce {A : Type} (o : option A) (d : A) : A :=
  match o with
  | Some a => a
  | None => d
  end.

(** [`${n}`] for an integer [n] below 10^21 in absolute value: its decimal
    digits, with a leading minus sign for a negative one. *)
Definition number_to_string (n : Z) : string :=
  NilZero.string_of_int (Z.to_int n).

(** What [throw] can carry out of the client: an object built by
    [new Error(message)], the TypeError the engine raises when a
    destructuring pattern is applied to [null] or [undefined], or the
    TypeError it raises when a value cannot be turned into a string. *)
Inductive JsError : Type :=
| ErrorObject (message : string)
| DestructuringTypeError
| ConversionTypeError.

(** The part of an error that is not its message text: its class, as seen
    through [err.name], [err.constructor] or [instanceof]. *)
Definition err_name (e : JsError) : string :=
  match e with
  | ErrorObject _ => "Error"
  | DestructuringTypeError | ConversionTypeError => "TypeError"
  end.

Definition err_message (e : JsError) : option string :=
  match e with
  | ErrorObject m => Some m
  | DestructuringTypeError | ConversionTypeError => None
  end.

End Js.
Import Js.

(** ** The polling strategy *)

(** [(attempt, previousDelay, serverHint) => nextDelay] *)
Definition Strategy : Type := Z -> Z -> JsValue -> Z.

(** client.js, lines 8-15. *)
Definition defaultPollingStrategy : Strategy :=
  fun attempt previousDelay serverHint =>
    if truthy serverHint
       && typeof_is_number (get_prop serverHint "remainingSeconds")
       && number_lt (get_prop serverHint "remainingSeconds") 5
    then 1000
    else previousDelay * 2.

(** The two hint objects the loop builds: [{}] and [{ remainingSeconds }]. *)
Definition empty_hint : JsValue := JsObject [].

Definition hint_of (remainingSeconds : JsValue) : JsValue :=
  JsObject [("remainingSeconds"%string, remainingSeconds)].

(** ** The client object *)

(** The [options] argument of the constructor; [None] is a field that is
    absent (or [null]), which is what [??] tests. *)
Record Options : Type := mkOptions {
  opt_initialDelay : option Z;
  opt_maxAttempts : option Z;
  opt_pollingStrategy : option Strategy;
  opt_maxDurationMs : option Z;
  opt_token : option string
}.

Definition no_options : Options := mkOptions None None None None None.

(** The instance fields, in the order the constructor assigns them. *)
Record Client : Type := mkClient {
  baseUrl : string;
  initialDelay : Z;
  maxAttempts : Z;
  pollingStrategy : Strategy;
  maxDurationMs : Z;
  token : option string;
  attempt : Z;
  currentDelay : Z;
  startTime : Z
}.

(** [this.attempt = a] *)
Definition set_attempt (a : Z) (c : Client) : Client :=
  mkClient (baseUrl c) (initialDelay c) (maxAttempts c) (pollingStrategy c)
           (maxDurationMs c) (token c) a (currentDelay c) (startTime c).

(** [this.currentDelay = d] *)
Definition set_currentDelay (d : Z) (c : Client) : Client :=
  mkClient (baseUrl c) (initialDelay c) (maxAttempts c) (pollingStrategy c)
           (maxDurationMs c) (token c) (attempt c) d (startTime c).

(** ** The outside world *)

Definition Headers : Type := list (string * string).

Inductive AxiosResult : Type :=
| AxiosResponse (data : JsValue)
| AxiosRejected (message : string).

(** [date_now k] is what the [k]-th evaluation of [Date.now()] returns;
    [axios_get k url headers] is how the [k]-th HTTP request ends. *)
Record Env : Type := mkEnv {
  date_now : nat -> Z;
  axios_get : nat -> string -> Headers -> AxiosResult
}.

Inductive Event : Type :=
| EvGet (url : string) (headers : Headers)
| EvSleep (ms : Z).

(** How far the environment has been consumed, and the effects so far, oldest
    first. *)
Record World : Type := mkWorld {
  clock_reads : nat;
  requests : nat;
  effects : list Event
}.

Definition fresh_world : World := mkWorld 0 0 [].

(** [Date.now()] *)
Definition Date_now (env : Env) (w : World) : Z * World :=
  (date_now env (clock_reads w),
   mkWorld (S (clock_reads w)) (requests w) (effects w)).

(** [this._sleep(ms)], awaited: lines 120-122. *)
Definition _sleep (ms : Z) (w : World) : World :=
  mkWorld (clock_reads w) (requests w) (effects w ++ [EvSleep ms]).

(** The durations slept, in order. *)
Definition sleeps (evs : list Event) : list Z :=
  flat_map (fun e => match e with EvSleep ms => [ms] | EvGet _ _ => [] end) evs.

(** ** The constructor: lines 21-35 *)

Definition constructor (env : Env) (url : string) (options : Options)
           (w : World) : Client * World :=
  let initialDelay := coalesce (opt_initialDelay options) 1000 in
  let maxAttempts := coalesce (opt_maxAttempts options) 10 in
  let pollingStrategy :=
    coalesce (opt_pollingStrategy options) defaultPollingStrategy in
  let maxDurationMs := coalesce (opt_maxDurationMs options) 30000 in
  let token := opt_token options in
  let '(now, w') := Date_now env w in
  (mkClient url initialDelay maxAttempts pollingStrategy maxDurationMs token
            0 initialDelay now,
   w').

(** ** getStatus: lines 41-55 *)

(** [if (this.token)]: a token that is [null] or the empty string adds no
    header. *)
Definition request_headers (c : Client) : Headers :=
  match token c with
  | Some t =>
      if String.eqb t EmptyString then []
      else [("Authorization"%string, "Bearer " +++ t)]
  | None => []
  end.

Definition status_url (c : Client) : string := baseUrl c +++ "/status".

(** The value the returned promise settles with: resolved with
    [response.data], or rejected with the wrapping [Error]. *)
Definition getStatus (env : Env) (c : Client) (w : World)
  : (JsValue + JsError) * World :=
  let url := status_url c in
  let headers := request_headers c in
  let w' := mkWorld (clock_reads w) (S (requests w))
                    (effects w ++ [EvGet url headers]) in
  match axios_get env (requests w) url headers with
  | AxiosResponse data => (inl data, w')
  | AxiosRejected msg =>
      (inr (ErrorObject ("Error fetching status: " +++ msg)), w')
  end.

(** ** waitForCompletion: lines 63-115 *)

(** The four [throw] statements of [waitForCompletion], by line: 70, 102, 81
    and 114. *)
Inductive ErrorKind : Type :=
| Timeout
| RemoteError
| ExhaustedWithTransportErrors
| ExhaustedPending.

Definition dquote : string := String "034"%char EmptyString.

(** The error object each of them builds. *)
Definition thrown_error (c : Client) (k : ErrorKind) : JsError :=
  match k with
  | Timeout =>
      ErrorObject ("[ERROR] Timed out after "
                   +++ number_to_string (maxDurationMs c)
                   +++ "ms without completion.")
  | RemoteError =>
      ErrorObject ("[ERROR] Server returned " +++ dquote +++ "error"
                   +++ dquote +++ " status.")
  | ExhaustedWithTransportErrors =>
      ErrorObject ("[ERROR] Max attempts ("
                   +++ number_to_string (maxAttempts c)
                   +++ ") reached with repeated errors.")
  | ExhaustedPending =>
      ErrorObject ("[ERROR] Max attempts ("
                   +++ number_to_string (maxAttempts c)
                   +++ ") reached without completion.")
  end.

(** How the call ends: [return v] or [throw e]. *)
Inductive Completion : Type :=
| Returned (v : string)
| Threw (e : JsError).

(** What one pass through the loop body does to the control flow: fall
    through (or [continue]) to the loop test, or leave the function. *)
Inductive Step : Type :=
| Continue
| Leave (r : Completion).

(** Lines 78-91, the [catch] block: the request failed. *)
Definition on_transport_failure (c : Client) (w : World)
  : Step * Client * World :=
  if attempt c >=? maxAttempts c then
    (Leave (Threw (thrown_error c ExhaustedWithTransportErrors)), c, w)
  else
    let w1 := _sleep (currentDelay c) w in
    let c1 :=
      set_currentDelay
        (pollingStrategy c (attempt c) (currentDelay c) empty_hint) c in
    (Continue, c1, w1).

(** Line 95: the template literal of the log line turns [result] and
    [remainingSeconds ?? 'N/A'] into strings, in this order; either
    conversion can throw. *)
Definition log_line_throws (result remainingSeconds : JsValue) : bool :=
  string_conversion_throws result
  || string_conversion_throws (nullish_or remainingSeconds (JsString "N/A")).

(** Lines 94-110: the request succeeded and [this.attempt] has been
    incremented. *)
Definition on_response (serverResponse : JsValue) (c : Client) (w : World)
  : Step * Client * World :=
  if nullish serverResponse then
    (Leave (Threw DestructuringTypeError), c, w)
  else
    let result := get_prop serverResponse "result" in
    let remainingSeconds := get_prop serverResponse "remainingSeconds" in
    if log_line_throws result remainingSeconds then
      (Leave (Threw ConversionTypeError), c, w)
    else if strict_eq_string result "completed" then
      (Leave (Returned "completed"), c, w)
    else if strict_eq_string result "error" then
      (Leave (Threw (thrown_error c RemoteError)), c, w)
    else
      let w1 := _sleep (currentDelay c) w in
      let c1 :=
        set_currentDelay
          (pollingStrategy c (attempt c) (currentDelay c)
                           (hint_of remainingSeconds)) c in
      (Continue, c1, w1).

(** Lines 67-110: the body of the [while] loop. *)
Definition loop_body (env : Env) (c : Client) (w : World)
  : Step * Client * World :=
  let '(now, w0) := Date_now env w in
  let elapsedMs := now - startTime c in
  if elapsedMs >? maxDurationMs c then
    (Leave (Threw (thrown_error c Timeout)), c, w0)
  else
    match getStatus env c w0 with
    | (inl serverResponse, w1) =>
        on_response serverResponse (set_attempt (attempt c + 1) c) w1
    | (inr err, w1) =>
        on_transport_failure c w1
    end.

Inductive Outcome : Type :=
| Finished (r : Completion)
| OutOfFuel.

(** Lines 66-114: the loop and the [throw] after it.  [fuel] bounds the number
    of passes through the body. *)
Fixpoint waitForCompletion (fuel : nat) (env : Env) (c : Client) (w : World)
  : Outcome * Client * World :=
  if attempt c <? maxAttempts c then
    match fuel with
    | O => (OutOfFuel, c, w)
    | S fuel' =>
        match loop_body env c w with
        | (Continue, c', w') => waitForCompletion fuel' env c' w'
        | (Leave r, c', w') => (Finished r, c', w')
        end
    end
  else
    (Finished (Threw (thrown_error c ExhaustedPending)), c, w).

(** Projections of a run. *)
Definition outcome_of (r : Outcome * Client * World) : Outcome := fst (fst r).
Definition client_of (r : Outcome * Client * World) : Client := snd (fst r).
Definition world_of (r : Outcome * Client * World) : World := snd r.

Definition step_of (r : Step * Client * World) : Step := fst (fst r).
Definition step_client (r : Step * Client * World) : Client := snd (fst r).
Definition step_world (r : Step * Client * World) : World := snd r.

(** The fields of the client that configure it, and [startTime]. *)
Definition same_config (c c' : Client) : Prop :=
  baseUrl c' = baseUrl c
  /\ initialDelay c' = initialDelay c
  /\ maxAttempts c' = maxAttempts c
  /\ pollingStrategy c' = pollingStrategy c
  /\ maxDurationMs c' = maxDurationMs c
  /\ token c' = token c
  /\ startTime c' = startTime c.

(** The world once the request of a pass has been made: one more clock
    reading, one more request. *)
Definition after_request (c : Client) (w : World) : World :=
  mkWorld (S (clock_reads w)) (S (requests w))
          (effects w ++ [EvGet (status_url c) (request_headers c)]).

(** A body that lines 94 and 95 take without a TypeError: it is neither
    [null] nor [undefined], and its [result] and [remainingSeconds] can be
    turned into strings.  Every body whose [result] and [remainingSeconds]
    are absent or are strings, numbers or booleans is of this kind. *)
Definition readable (data : JsValue) : Prop :=
  nullish data = false
  /\ log_line_throws (get_prop data "result")
                     (get_prop data "remainingSeconds") = false.

(** No request is answered with a body that is not readable. *)
Definition readable_bodies (env : Env) : Prop :=
  forall k url headers data,
    axios_get env k url headers = AxiosResponse data -> readable data.

(** ** Scenarios used to exercise the definitions *)

Module Scenario.

Definition localhost : string := "http://localhost:3000".

Definition with_maxAttempts (n : Z) : Options :=
  mkOptions None (Some n) None None None.

(** A body [{ result, remainingSeconds }]. *)
Definition body (result : string) (remainingSeconds : Z) : JsValue :=
  JsObject [("result"%string, JsString result);
            ("remainingSeconds"%string, JsNumber remainingSeconds)].

(** The body the server sends for an error: [{ result: 'error' }]. *)
Definition error_body : JsValue :=
  JsObject [("result"%string, JsString "error")].

(** A clock that stands still at [t]. *)
Definition frozen_clock (t : Z) : nat -> Z := fun _ => t.

(** Scenario E: every request is refused.  The client is built at time 0;
    requests take no time and each sleep lasts as long as asked, so the
    passes of the loop read the clock at 0, 1000, 3000, 7000, ... *)
Definition refusing_env : Env :=
  mkEnv (fun k => match k with
                  | O => 0
                  | S j => 1000 * (2 ^ Z.of_nat j - 1)
                  end)
        (fun _ _ _ => AxiosRejected "connect ECONNREFUSED 127.0.0.1:3000").

(** Every request is answered with the same body, the clock stands still. *)
Definition constant_env (data : JsValue) : Env :=
  mkEnv (frozen_clock 0) (fun _ _ _ => AxiosResponse data).

(** Pending once, then completed. *)
Definition pending_then_completed_env : Env :=
  mkEnv (frozen_clock 0)
        (fun k _ _ => match k with
                      | O => AxiosResponse (body "pending" 9)
                      | S _ => AxiosResponse (body "completed" 0)
                      end).

(** The client is built at time 0 and first used at time 40000. *)
Definition late_start_env : Env :=
  mkEnv (fun k => match k with O => 0 | S _ => 40000 end)
        (fun _ _ _ => AxiosResponse (body "completed" 0)).

(** Every request is refused, the clock stands still. *)
Definition rejecting_env : Env :=
  mkEnv (frozen_clock 0) (fun _ _ _ => AxiosRejected "socket hang up").

(** A strategy that returns a negative delay. *)
Definition negative_strategy : Strategy := fun _ _ _ => -5.

End Scenario.

(** ** One pass through the loop body, as a relation *)

(** The eight ways a pass can go, each with the condition under which it is
    taken and with the step, the client and the world it ends in. *)
Inductive pass_of (env : Env) (c : Client) (w : World)
  : Step * Client * World -> Prop :=
| pass_timeout :
    date_now env (clock_reads w) - startTime c > maxDurationMs c ->
    pass_of env c w
            (Leave (Threw (thrown_error c Timeout)), c,
             mkWorld (S (clock_reads w)) (requests w) (effects w))
| pass_refused (msg : string) :
    date_now env (clock_reads w) - startTime c <= maxDurationMs c ->
    axios_get env (requests w) (status_url c) (request_headers c)
    = AxiosRejected msg ->
    attempt c < maxAttempts c ->
    pass_of env c w
            (Continue,
             set_currentDelay
               (pollingStrategy c (attempt c) (currentDelay c) empty_hint) c,
             _sleep (currentDelay c) (after_request c w))
| pass_refused_exhausted (msg : string) :
    date_now env (clock_reads w) - startTime c <= maxDurationMs c ->
    axios_get env (requests w) (status_url c) (request_headers c)
    = AxiosRejected msg ->
    maxAttempts c <= attempt c ->
    pass_of env c w
            (Leave (Threw (thrown_error c ExhaustedWithTransportErrors)), c,
             after_request c w)
| pass_nullish (data : JsValue) :
    date_now env (clock_reads w) - startTime c <= maxDurationMs c ->
    axios_get env (requests w) (status_url c) (request_headers c)
    = AxiosResponse data ->
    nullish data = true ->
    pass_of env c w
            (Leave (Threw DestructuringTypeError),
             set_attempt (attempt c + 1) c, after_request c w)
| pass_unprintable (data : JsValue) :
    date_now env (clock_reads w) - startTime c <= maxDurationMs c ->
    axios_get env (requests w) (status_url c) (request_headers c)
    = AxiosResponse data ->
    nullish data = false ->
    log_line_throws (get_prop data "result")
                    (get_prop data "remainingSeconds") = true ->
    pass_of env c w
            (Leave (Threw ConversionTypeError),
             set_attempt (attempt c + 1) c, after_request c w)
| pass_completed (data : JsValue) :
    date_now env (clock_reads w) - startTime c <= maxDurationMs c ->
    axios_get env (requests w) (status_url c) (request_headers c)
    = AxiosResponse data ->
    readable data ->
    get_prop data "result" = JsString "completed" ->
    pass_of env c w
            (Leave (Returned "completed"),
             set_attempt (attempt c + 1) c, after_request c w)
| pass_error (data : JsValue) :
    date_now env (clock_reads w) - startTime c <= maxDurationMs c ->
    axios_get env (requests w) (status_url c) (request_headers c)
    = AxiosResponse data ->
    readable data ->
    get_prop data "result" = JsString "error" ->
    pass_of env c w
            (Leave (Threw (thrown_error c RemoteError)),
             set_attempt (attempt c + 1) c, after_request c w)
| pass_pending (data : JsValue) :
    date_now env (clock_reads w) - startTime c <= maxDurationMs c ->
    axios_get env (requests w) (status_url c) (request_headers c)
    = AxiosResponse data ->
    readable data ->
    get_prop data "result" <> JsString "completed" ->
    get_prop data "result" <> JsString "error" ->
    pass_of env c w
            (Continue,
             set_currentDelay
               (pollingStrategy c (attempt c + 1) (currentDelay c)
                                (hint_of (get_prop data "remainingSeconds")))
               (set_attempt (attempt c + 1) c),
             _sleep (currentDelay c) (after_request c w)).

(** ** Shapes of a trace *)

(** What one pass that makes its request adds to the trace: the request,
    alone or followed by one sleep. *)
Definition request_block (c : Client) (evs : list Event) : Prop :=
  evs = [EvGet (status_url c) (request_headers c)]
  \/ exists ms, evs = [EvGet (status_url c) (request_headers c); EvSleep ms].

(** The number of requests in a trace. *)
Definition count_requests (evs : list Event) : nat :=
  List.length
    (filter (fun e => match e with EvGet _ _ => true | EvSleep _ => false end)
            evs).

(** [delay_chain next d l d']: starting with the delay [d], the sleeps [l]
    are taken one after the other, each for the delay of the moment, which is
    then replaced by one that [next] allows; [d'] is the delay in the end. *)
Inductive delay_chain (next : Z -> Z -> Prop) : Z -> list Z -> Z -> Prop :=
| chain_done (d : Z) : delay_chain next d [] d
| chain_sleep (d d1 : Z) (l : list Z) (d' : Z) :
    next d d1 -> delay_chain next d1 l d' -> delay_chain next d (d :: l) d'.

(** The delays [d], [f d], [f (f d)], ... ([n] of them). *)
Fixpoint iterated_delays (f : Z -> Z) (d : Z) (n : nat) : list Z :=
  match n with
  | O => []
  | S n' => d :: iterated_delays f (f d) n'
  end.

(** Transports that answer every request, and that refuse every request. *)
Definition never_rejects (env : Env) : Prop :=
  forall k url headers,
  exists data, axios_get env k url headers = AxiosResponse data.

Definition always_rejects (env : Env) : Prop :=
  forall k url headers,
  exists msg, axios_get env k url headers = AxiosRejected msg.

(** An answer after which the client goes on polling: a readable body whose
    [result] is neither ['completed'] nor ['error']. *)
Definition keeps_polling (data : JsValue) : Prop :=
  readable data
  /\ get_prop data "result" <> JsString "completed"
  /\ get_prop data "result" <> JsString "error".

(** ** exampleUsage.js *)

(** Lines 9-13: [(attempt, previousDelay) => previousDelay + 1000], the sum
    being the double nearest to it. *)
Definition example_strategy : Strategy :=
  fun attempt previousDelay _ => round_to_double (previousDelay + 1000).

(** Lines 5-16: the options of the example. *)
Definition example_options : Options :=
  mkOptions (Some 1000) (Some 8) (Some example_strategy) (Some 20000)
            (Some "your-secure-token"%string).

(** ** server.js *)

Module Server.

(** [process.env.DELAY_SECONDS || 10]: the variable holds the digits of an
    integer number of seconds; [None] is a variable that is unset or
    empty. *)
Definition DELAY_SECONDS (variable : option Z) : Z :=
  match variable with
  | Some seconds => seconds
  | None => 10
  end.

(** The constant 0.1, which is the double 3602879701896397 / 2^55. *)
Definition ERROR_PROBABILITY : Q := 3602879701896397 # 36028797018963968.

(** [a < b] on numbers. *)
Definition Qlt_bool (a b : Q) : bool :=
  match (a ?= b)%Q with
  | Lt => true
  | _ => false
  end.

(** The handler of [GET /status]: the body given to [res.json].
    [startTime] and [now] are the two dates in milliseconds, [random] is the
    value of [Math.random()].  The arithmetic here is exact, where the source
    computes in doubles.  The two agree on the comparison and on
    [Math.ceil] when the delay is a whole number of seconds of at most 2^31
    in absolute value and the dates are at most 2^40 ms apart: the quotient
    and the difference are then below 2^32, the two roundings add up to less
    than 2^-19, and the exact value is a whole number (computed without
    error) or at least 1/1000 away from one. *)
Definition status_route (delay : Z) (startTime now : Z) (random : Q)
  : JsValue :=
  let diffSeconds := (inject_Z (now - startTime) / inject_Z 1000)%Q in
  if Qlt_bool random ERROR_PROBABILITY then
    JsObject [("result"%string, JsString "error")]
  else
    let remainingSeconds := (inject_Z delay - diffSeconds)%Q in
    if Qle_bool remainingSeconds 0 then
      JsObject [("result"%string, JsString "completed");
                ("remainingSeconds"%string, JsNumber 0)]
    else
      JsObject [("result"%string, JsString "pending");
                ("remainingSeconds"%string,
                 JsNumber (Qceiling remainingSeconds))].

(** The three bodies the handler can answer with. *)
Definition error_body : JsValue :=
  JsObject [("result"%string, JsString "error")].

Definition completed_body : JsValue :=
  JsObject [("result"%string, JsString "completed");
            ("remainingSeconds"%string, JsNumber 0)].

Definition pending_body (n : Z) : JsValue :=
  JsObject [("result"%string, JsString "pending");
            ("remainingSeconds"%string, JsNumber n)].

(** The milliseconds that remain until the job is done, negative once it is
    done. *)
Definition ms_left (delay startTime now : Z) : Z :=
  1000 * delay - (now - startTime).

(** A running server as the client meets it: its delay, the date it
    started, and for the [k]-th request the date it is handled and the value
    [Math.random()] gives then. *)
Record Backend : Type := mkBackend {
  delay : Z;
  started : Z;
  handled_at : nat -> Z;
  random_at : nat -> Q
}.

(** The environment of a client whose [baseUrl] is this server. *)
Definition backend_env (clock : nat -> Z) (b : Backend) : Env :=
  mkEnv clock
        (fun k _ _ =>
           AxiosResponse
             (status_route (delay b) (started b) (handled_at b k)
                           (random_at b k))).

End Server.

(** ** More scenarios *)

Module Demo.

(** A clock that ticks one second per reading, from 0. *)
Definition ticking_clock : nat -> Z := fun k => 1000 * Z.of_nat k.

(** The server of the integration test (a delay of 3 s), started at 0 and
    never drawing an error; the [k]-th request is handled at [1000 * k]. *)
Definition calm_backend : Server.Backend :=
  Server.mkBackend 3 0 (fun k => 1000 * Z.of_nat k) (fun _ => 1 # 2).

(** A server that draws an error on the second request. *)
Definition moody_backend : Server.Backend :=
  Server.mkBackend 3 0 (fun k => 1000 * Z.of_nat k)
                   (fun k => match k with 1%nat => 1 # 20 | _ => 1 # 2 end).

(** The first request is refused, the later ones are answered pending. *)
Definition flaky_env : Env :=
  mkEnv (Scenario.frozen_clock 0)
        (fun k _ _ => match k with
                      | O => AxiosRejected "socket hang up"
                      | S _ => AxiosResponse (Scenario.body "pending" 9)
                      end).

End Demo.

(** * Properties *)

(** ** Strings *)

Lemma append_cancel_l (p a b : string) : p +++ a = p +++ b -> a = b.
Proof.
  induction p as [|ch p IH]; simpl; intros H.
  - exact H.
  - injection H as H. now apply IH.
Qed.

(** ** JavaScript values *)

Lemma get_prop_nullish (v : JsValue) (key : string) :
  nullish v = true -> get_prop v key = JsUndefined.
Proof. destruct v; simpl; intros H; try discriminate; reflexivity. Qed.

Lemma strict_eq_string_true (v : JsValue) (s : string) :
  strict_eq_string v s = true <-> v = JsString s.
Proof.
  destruct v; simpl; split; intros H; try discriminate.
  - apply String.eqb_eq in H. now subst.
  - injection H as ->. apply String.eqb_refl.
Qed.

Lemma log_line_throws_false (result remainingSeconds : JsValue) :
  string_conversion_throws result = false ->
  string_conversion_throws remainingSeconds = false ->
  log_line_throws result remainingSeconds = false.
Proof.
  intros Hr Hs. unfold log_line_throws, nullish_or. rewrite Hr.
  destruct (nullish remainingSeconds); [reflexivity|exact Hs].
Qed.

(** A body whose [result] hides [toString], or holds such an object in an
    array, or whose [remainingSeconds] does, is not readable; one whose two
    fields are absent, strings or numbers is. *)
Lemma readable_examples :
  ~ readable (JsObject [("result"%string,
                         JsObject [("toString"%string, JsNumber 1)])])
  /\ ~ readable (JsObject [("result"%string,
                            JsArray [JsNull;
                                     JsArray [JsObject [("toString"%string,
                                                         JsNull)]]])])
  /\ ~ readable (JsObject [("result"%string, JsString "completed");
                           ("remainingSeconds"%string,
                            JsObject [("toString"%string, JsNumber 0)])])
  /\ readable (JsObject [("result"%string, JsObject []);
                         ("remainingSeconds"%string, JsArray [JsNull])])
  /\ readable (JsObject [("result"%string, JsString "pending")])
  /\ readable (JsString "not json").
Proof.
  repeat split; try reflexivity; intros [_ H]; discriminate H.
Qed.

(** Beyond 2^53 a sum is rounded to the nearest double: adding 1000 to 2^56
    gives 2^56 + 992, and adding it again 2^56 + 1984. *)
Lemma round_to_double_examples :
  round_to_double (2 ^ 56 + 1000) = 2 ^ 56 + 992
  /\ round_to_double (2 ^ 56 + 992 + 1000) = 2 ^ 56 + 1984
  /\ round_to_double (2 ^ 53 + 1) = 2 ^ 53
  /\ round_to_double (2 ^ 53 + 3) = 2 ^ 53 + 4
  /\ round_to_double (- (2 ^ 53) - 1) = - (2 ^ 53)
  /\ round_to_double 9007199254740991 = 9007199254740991.
Proof. repeat split. Qed.

(** ** The default strategy *)

Lemma defaultPollingStrategy_nonneg (a d : Z) (h : JsValue) :
  0 <= d -> 0 <= defaultPollingStrategy a d h.
Proof.
  intros Hd. unfold defaultPollingStrategy.
  destruct (_ && _ && _); lia.
Qed.

(** C7.  Whatever the attempt number and the previous delay, the default
    strategy answers 1000 when the hint carries a number [remainingSeconds]
    below 5, and twice the previous delay in every other case: no hint, a hint
    without [remainingSeconds] (or with one that is not a number), or a
    [remainingSeconds] of 5 or more.  In particular 1000 and no hint give
    2000, and a hint of 3 gives 1000 for every previous delay. *)
Theorem defaultPollingStrategy_spec (attempt previousDelay : Z) :
  (forall hint r,
      truthy hint = true ->
      get_prop hint "remainingSeconds" = JsNumber r ->
      r < 5 ->
      defaultPollingStrategy attempt previousDelay hint = 1000)
  /\ (forall hint,
         (forall r, truthy hint = true ->
                    get_prop hint "remainingSeconds" = JsNumber r -> 5 <= r) ->
         defaultPollingStrategy attempt previousDelay hint = previousDelay * 2)
  /\ defaultPollingStrategy attempt 1000 JsUndefined = 2000
  /\ defaultPollingStrategy attempt 1000 empty_hint = 2000
  /\ defaultPollingStrategy attempt previousDelay (hint_of (JsNumber 3)) = 1000.
Proof.
  repeat split; try reflexivity.
  - intros hint r Ht Hr Hlt. unfold defaultPollingStrategy.
    rewrite Ht, Hr. simpl.
    apply Z.ltb_lt in Hlt. now rewrite Hlt.
  - intros hint Hge. unfold defaultPollingStrategy.
    destruct (truthy hint) eqn:Ht; simpl; [|reflexivity].
    destruct (get_prop hint "remainingSeconds") as [| | |r| | |] eqn:Hr;
      simpl; try reflexivity.
    specialize (Hge r eq_refl eq_refl).
    apply Z.ltb_ge in Hge. now rewrite Hge.
Qed.

Lemma defaultPollingStrategy_spec_witness :
  defaultPollingStrategy 2 4000 (hint_of (JsNumber 3)) = 1000
  /\ defaultPollingStrategy 2 4000 (hint_of (JsNumber 7)) = 8000
  /\ defaultPollingStrategy 2 4000 (hint_of JsUndefined) = 8000.
Proof.
  destruct (defaultPollingStrategy_spec 2 4000) as [Hlow [Hother _]].
  split; [|split].
  - apply (Hlow (hint_of (JsNumber 3)) 3); [reflexivity | reflexivity | lia].
  - apply Hother. intros r _ Hr. injection Hr as <-. lia.
  - apply Hother. intros r _ Hr. discriminate Hr.
Defined.

(** ** One pass through the loop body *)

Ltac break_step :=
  repeat match goal with
         | |- context [if ?b then _ else _] => destruct b eqn:?
         | |- context [match axios_get ?e ?k ?u ?h with _ => _ end] =>
             destruct (axios_get e k u h) eqn:?
         end;
  unfold step_of, step_client, step_world; simpl.

Lemma on_transport_failure_client (c : Client) (w : World) :
  let c' := step_client (on_transport_failure c w) in
  c' = c \/ exists d, c' = set_currentDelay d c.
Proof.
  unfold on_transport_failure. break_step; eauto.
Qed.

Lemma on_response_client (data : JsValue) (c : Client) (w : World) :
  let c' := step_client (on_response data c w) in
  c' = c \/ exists d, c' = set_currentDelay d c.
Proof.
  unfold on_response. break_step; eauto.
Qed.

(** A pass changes the client in one of four ways only. *)
Lemma loop_body_client (env : Env) (c : Client) (w : World) :
  let c' := step_client (loop_body env c w) in
  c' = c
  \/ (exists d, c' = set_currentDelay d c)
  \/ c' = set_attempt (attempt c + 1) c
  \/ (exists d, c' = set_currentDelay d (set_attempt (attempt c + 1) c)).
Proof.
  unfold loop_body, getStatus, Date_now.
  destruct (_ >? _); simpl; [now left|].
  destruct (axios_get _ _ _ _).
  - match goal with
    | |- context [on_response ?d ?c1 ?w1] =>
        destruct (on_response_client d c1 w1) as [H|[d' H]]
    end; unfold step_client in *; simpl in H; rewrite H; eauto.
  - match goal with
    | |- context [on_transport_failure ?c1 ?w1] =>
        destruct (on_transport_failure_client c1 w1) as [H|[d' H]]
    end; unfold step_client in *; simpl in H; rewrite H; eauto.
Qed.

(** ** Invariants of the whole loop *)

Section Invariants.

Variable env : Env.

(** A property of the client and the world that holds when the call starts
    and that every pass through the body keeps, holds when the call ends,
    and also where an unfinished run stands. *)
Lemma waitForCompletion_invariant (P : Client -> World -> Prop) :
  (forall c w,
      P c w -> attempt c < maxAttempts c ->
      P (step_client (loop_body env c w)) (step_world (loop_body env c w))) ->
  forall fuel c w,
    P c w ->
    P (client_of (waitForCompletion fuel env c w))
      (world_of (waitForCompletion fuel env c w)).
Proof.
  intros Hstep fuel.
  induction fuel as [|fuel IH]; intros c w HP; simpl.
  - destruct (attempt c <? maxAttempts c); exact HP.
  - destruct (attempt c <? maxAttempts c) eqn:Hlt; [|exact HP].
    apply Z.ltb_lt in Hlt.
    specialize (Hstep c w HP Hlt).
    destruct (loop_body env c w) as [[[|r] c'] w']; simpl in Hstep.
    + now apply IH.
    + exact Hstep.
Qed.

(** The same for the way the call ends: [Q] holds of every completion a
    pass can produce from a state satisfying [P], and of the [throw] after
    the loop. *)
Lemma waitForCompletion_completion (P : Client -> World -> Prop)
      (Q : Completion -> Prop) :
  (forall c w,
      P c w -> attempt c < maxAttempts c ->
      P (step_client (loop_body env c w)) (step_world (loop_body env c w))) ->
  (forall c w r,
      P c w -> attempt c < maxAttempts c ->
      step_of (loop_body env c w) = Leave r -> Q r) ->
  (forall c w,
      P c w -> maxAttempts c <= attempt c ->
      Q (Threw (thrown_error c ExhaustedPending))) ->
  forall fuel c w r,
    P c w ->
    outcome_of (waitForCompletion fuel env c w) = Finished r ->
    Q r.
Proof.
  intros Hstep Hleave Hexit fuel.
  induction fuel as [|fuel IH]; intros c w r HP; simpl.
  - destruct (attempt c <? maxAttempts c) eqn:Hlt; simpl.
    + discriminate.
    + apply Z.ltb_ge in Hlt. intros [= <-]. now apply (Hexit c w).
  - destruct (attempt c <? maxAttempts c) eqn:Hlt; simpl.
    + apply Z.ltb_lt in Hlt.
      specialize (Hstep c w HP Hlt). specialize (Hleave c w).
      destruct (loop_body env c w) as [[[|r'] c'] w']; simpl in *.
      * now apply IH.
      * intros [= <-]. now apply Hleave.
    + apply Z.ltb_ge in Hlt. intros [= <-]. now apply (Hexit c w).
Qed.

End Invariants.

(** ** What a call leaves untouched *)

Lemma same_config_refl (c : Client) : same_config c c.
Proof. repeat split. Qed.

Lemma loop_body_same_config (env : Env) (c0 c : Client) (w : World) :
  same_config c0 c -> same_config c0 (step_client (loop_body env c w)).
Proof.
  intros H.
  destruct (loop_body_client env c w) as [E|[[d E]|[E|[d E]]]];
    rewrite E; exact H.
Qed.

Lemma waitForCompletion_same_config (fuel : nat) (env : Env) (c : Client)
      (w : World) :
  same_config c (client_of (waitForCompletion fuel env c w)).
Proof.
  apply (waitForCompletion_invariant env (fun c' _ => same_config c c')).
  - intros c' w' H _. now apply loop_body_same_config.
  - apply same_config_refl.
Qed.

Lemma thrown_error_same_config (c c' : Client) (k : ErrorKind) :
  same_config c c' -> thrown_error c' k = thrown_error c k.
Proof.
  intros (_ & _ & Hmax & _ & Hdur & _). destruct k; simpl; congruence.
Qed.

(** C10.  A call of [waitForCompletion] leaves [baseUrl], [initialDelay],
    [maxAttempts], [pollingStrategy], [maxDurationMs], [token] and [startTime]
    as they were; of the instance fields only [attempt] and [currentDelay] can
    differ afterwards.  This holds however the call ends, and at every point
    an unfinished call can have reached. *)
Theorem waitForCompletion_frame (fuel : nat) (env : Env) (c : Client)
        (w : World) :
  let c' := client_of (waitForCompletion fuel env c w) in
  baseUrl c' = baseUrl c
  /\ initialDelay c' = initialDelay c
  /\ maxAttempts c' = maxAttempts c
  /\ pollingStrategy c' = pollingStrategy c
  /\ maxDurationMs c' = maxDurationMs c
  /\ token c' = token c
  /\ startTime c' = startTime c.
Proof. exact (waitForCompletion_same_config fuel env c w). Qed.

(** ** The attempt counter *)

Lemma loop_body_attempt (env : Env) (c : Client) (w : World) :
  let a' := attempt (step_client (loop_body env c w)) in
  a' = attempt c \/ a' = attempt c + 1.
Proof.
  destruct (loop_body_client env c w) as [E|[[d E]|[E|[d E]]]];
    simpl; rewrite E; simpl; auto.
Qed.

Lemma constructor_fields (env : Env) (url : string) (options : Options)
      (w : World) :
  let c := fst (constructor env url options w) in
  attempt c = 0
  /\ currentDelay c = initialDelay c
  /\ startTime c = date_now env (clock_reads w)
  /\ maxAttempts c = coalesce (opt_maxAttempts options) 10
  /\ initialDelay c = coalesce (opt_initialDelay options) 1000.
Proof. repeat split. Qed.

(** C8.  [attempt] never exceeds [maxAttempts]: for a client built with a
    non-negative [maxAttempts], after a call of [waitForCompletion] (however
    it ends) [attempt <= maxAttempts]; and a call started with
    [attempt <= maxAttempts] ends with [attempt <= maxAttempts], so the bound
    also holds for every later call on the same instance. *)
Theorem attempt_never_exceeds_maxAttempts :
  (forall env url options w0 fuel w,
      0 <= coalesce (opt_maxAttempts options) 10 ->
      let c := fst (constructor env url options w0) in
      let c' := client_of (waitForCompletion fuel env c w) in
      attempt c' <= maxAttempts c')
  /\ (forall fuel env c w,
         attempt c <= maxAttempts c ->
         let c' := client_of (waitForCompletion fuel env c w) in
         attempt c' <= maxAttempts c').
Proof.
  assert (Hinv : forall fuel env c w,
             attempt c <= maxAttempts c ->
             attempt (client_of (waitForCompletion fuel env c w))
             <= maxAttempts (client_of (waitForCompletion fuel env c w))).
  { intros fuel env c w H.
    apply (waitForCompletion_invariant env
             (fun c' _ => attempt c' <= maxAttempts c')); [|exact H].
    intros c' w' _ Hlt.
    destruct (loop_body_same_config env c' c' w' (same_config_refl c'))
      as (_ & _ & Hmax & _).
    rewrite Hmax.
    destruct (loop_body_attempt env c' w') as [E|E]; rewrite E; lia. }
  split.
  - intros env url options w0 fuel w Hpos c. apply Hinv. simpl. exact Hpos.
  - intros fuel env c w H. now apply Hinv.
Qed.

Lemma attempt_never_exceeds_maxAttempts_witness :
  let env := Scenario.constant_env (Scenario.body "pending" 9) in
  let c :=
    fst (constructor env Scenario.localhost (Scenario.with_maxAttempts 3)
                     fresh_world) in
  attempt (client_of (waitForCompletion 10 env c fresh_world)) <= 3.
Proof.
  intros env c.
  apply (proj1 attempt_never_exceeds_maxAttempts env Scenario.localhost
               (Scenario.with_maxAttempts 3) fresh_world 10%nat fresh_world).
  simpl. lia.
Defined.

(** ** The time budget *)

Lemma gtb_false (a b : Z) : a <= b -> (a >? b) = false.
Proof. intros H. rewrite Z.gtb_ltb. now apply Z.ltb_ge. Qed.

Lemma gtb_true (a b : Z) : a > b -> (a >? b) = true.
Proof. intros H. rewrite Z.gtb_ltb. apply Z.ltb_lt. lia. Qed.

(** A pass whose clock reading is within the budget makes the request and
    goes on with its result. *)
Lemma loop_body_in_time (env : Env) (c : Client) (w : World) :
  date_now env (clock_reads w) - startTime c <= maxDurationMs c ->
  loop_body env c w =
  match axios_get env (requests w) (status_url c) (request_headers c) with
  | AxiosResponse data =>
      on_response data (set_attempt (attempt c + 1) c) (after_request c w)
  | AxiosRejected _ => on_transport_failure c (after_request c w)
  end.
Proof.
  intros H. unfold loop_body, getStatus, Date_now, after_request. simpl.
  rewrite (gtb_false _ _ H).
  now destruct (axios_get _ _ _ _).
Qed.

Lemma on_response_world (data : JsValue) (c : Client) (w : World) :
  let w' := step_world (on_response data c w) in
  clock_reads w' = clock_reads w
  /\ requests w' = requests w
  /\ (effects w' = effects w
      \/ effects w' = effects w ++ [EvSleep (currentDelay c)]).
Proof. unfold on_response. break_step; auto. Qed.

Lemma on_transport_failure_world (c : Client) (w : World) :
  let w' := step_world (on_transport_failure c w) in
  clock_reads w' = clock_reads w
  /\ requests w' = requests w
  /\ (effects w' = effects w
      \/ effects w' = effects w ++ [EvSleep (currentDelay c)]).
Proof. unfold on_transport_failure. break_step; auto. Qed.

(** C5.  Each pass reads the clock first.  When the elapsed time is strictly
    above [maxDurationMs] the pass throws the Timeout error and the world is
    as before but for the clock reading: no request was made, nothing was
    slept; so a call whose loop test passes ends with Timeout there.  When the
    elapsed time is at most [maxDurationMs] the pass does make its request. *)
Theorem timeout_checked_before_request (env : Env) (c : Client) (w : World) :
  let elapsedMs := date_now env (clock_reads w) - startTime c in
  let w0 := mkWorld (S (clock_reads w)) (requests w) (effects w) in
  (elapsedMs > maxDurationMs c ->
   loop_body env c w = (Leave (Threw (thrown_error c Timeout)), c, w0)
   /\ (attempt c < maxAttempts c ->
       forall fuel,
         waitForCompletion (S fuel) env c w =
         (Finished (Threw (thrown_error c Timeout)), c, w0)))
  /\ (elapsedMs <= maxDurationMs c ->
      requests (step_world (loop_body env c w)) = S (requests w)
      /\ exists rest,
          effects (step_world (loop_body env c w)) =
          effects w ++ EvGet (status_url c) (request_headers c) :: rest).
Proof.
  intros elapsedMs w0. split.
  - intros Hgt.
    assert (Hbody : loop_body env c w
                    = (Leave (Threw (thrown_error c Timeout)), c, w0)).
    { unfold loop_body, Date_now. fold elapsedMs.
      now rewrite (gtb_true _ _ Hgt). }
    split; [exact Hbody|].
    intros Hlt fuel. simpl.
    apply Z.ltb_lt in Hlt. now rewrite Hlt, Hbody.
  - intros Hle. rewrite (loop_body_in_time env c w Hle).
    destruct (axios_get _ _ _ _) as [data|msg].
    + destruct (on_response_world data (set_attempt (attempt c + 1) c)
                  (after_request c w)) as (_ & Hreq & [Heff|Heff]);
        rewrite Hreq, Heff; split; try reflexivity; simpl.
      * now exists [].
      * rewrite <- app_assoc. simpl. eauto.
    + destruct (on_transport_failure_world c (after_request c w))
        as (_ & Hreq & [Heff|Heff]);
        rewrite Hreq, Heff; split; try reflexivity; simpl.
      * now exists [].
      * rewrite <- app_assoc. simpl. eauto.
Qed.

Lemma timeout_checked_before_request_witness :
  let env := Scenario.late_start_env in
  let c := fst (constructor env Scenario.localhost no_options fresh_world) in
  let w := snd (constructor env Scenario.localhost no_options fresh_world) in
  waitForCompletion 1 env c w =
  (Finished (Threw (thrown_error c Timeout)), c, mkWorld 2 0 [])
  /\ requests
       (step_world
          (loop_body (Scenario.constant_env (Scenario.body "pending" 9)) c w))
     = 1%nat.
Proof.
  intros env c w. split.
  - destruct (timeout_checked_before_request env c w) as [Hlate _].
    apply Hlate; simpl; lia.
  - destruct (timeout_checked_before_request
                (Scenario.constant_env (Scenario.body "pending" 9)) c w)
      as [_ Hin].
    apply Hin. simpl. lia.
Defined.

(** ** Terminal answers *)

Lemma result_not_nullish (data : JsValue) (s : string) :
  get_prop data "result" = JsString s -> nullish data = false.
Proof.
  intros H. destruct (nullish data) eqn:Hn; [|reflexivity].
  rewrite (get_prop_nullish data "result" Hn) in H. discriminate.
Qed.

(** C6.  In a call whose loop test passes and whose clock reading is within
    the budget, a response with [result === 'completed'] makes the call return
    ['completed'], and a response with [result === 'error'] makes it throw the
    RemoteError error; in both cases the call ends in that very pass, with the
    attempt counted, the request it made as the last effect, no sleep and no
    further request.  This is so from the first pass on.  The response is one
    whose [remainingSeconds] is absent or can be turned into a string, as
    the number of the wire contract can. *)
Theorem completed_and_error_end_the_call (fuel : nat) (env : Env)
        (c : Client) (w : World) (data : JsValue) :
  attempt c < maxAttempts c ->
  date_now env (clock_reads w) - startTime c <= maxDurationMs c ->
  axios_get env (requests w) (status_url c) (request_headers c)
  = AxiosResponse data ->
  string_conversion_throws (get_prop data "remainingSeconds") = false ->
  let c1 := set_attempt (attempt c + 1) c in
  let w1 := after_request c w in
  (get_prop data "result" = JsString "completed" ->
   waitForCompletion (S fuel) env c w
   = (Finished (Returned "completed"), c1, w1))
  /\ (get_prop data "result" = JsString "error" ->
      waitForCompletion (S fuel) env c w
      = (Finished (Threw (thrown_error c RemoteError)), c1, w1))
  /\ sleeps (effects w1) = sleeps (effects w)
  /\ requests w1 = S (requests w).
Proof.
  intros Hlt Hle Hget Hrs c1 w1.
  apply Z.ltb_lt in Hlt.
  repeat split.
  - intros Hres. simpl. rewrite Hlt, (loop_body_in_time env c w Hle), Hget.
    unfold on_response.
    rewrite (result_not_nullish data _ Hres), Hres.
    rewrite (log_line_throws_false (JsString _) _ eq_refl Hrs). reflexivity.
  - intros Hres. simpl. rewrite Hlt, (loop_body_in_time env c w Hle), Hget.
    unfold on_response.
    rewrite (result_not_nullish data _ Hres), Hres.
    rewrite (log_line_throws_false (JsString _) _ eq_refl Hrs). reflexivity.
  - unfold w1, after_request, sleeps. simpl.
    rewrite flat_map_app. simpl. now rewrite app_nil_r.
Qed.

Lemma completed_and_error_end_the_call_witness :
  let failing := Scenario.constant_env Scenario.error_body in
  let c := fst (constructor failing Scenario.localhost no_options fresh_world) in
  let w := snd (constructor failing Scenario.localhost no_options fresh_world) in
  let done := Scenario.constant_env (Scenario.body "completed" 0) in
  waitForCompletion 1 failing c w
  = (Finished (Threw (thrown_error c RemoteError)),
     set_attempt 1 c,
     mkWorld 2 1 [EvGet "http://localhost:3000/status" []])
  /\ waitForCompletion 1 done c w
     = (Finished (Returned "completed"),
        set_attempt 1 c,
        mkWorld 2 1 [EvGet "http://localhost:3000/status" []]).
Proof.
  intros failing c w done. split.
  - apply (completed_and_error_end_the_call 0 failing c w Scenario.error_body);
      try reflexivity; simpl; lia.
  - apply (completed_and_error_end_the_call
             0 done c w (Scenario.body "completed" 0));
      try reflexivity; simpl; lia.
Defined.

(** ** Responses that are neither completed nor error *)

(** C4, as the code has it.  Every readable response body (one that is not
    [null] or [undefined] and whose [result] and [remainingSeconds] can be
    turned into the strings of the log line) whose [result] is neither
    ['completed'] nor ['error'] (it may be ['pending'], any other string, or
    no string at all) goes through the pending branch: the attempt is
    counted, the call sleeps for [currentDelay], and the next delay is
    computed from the hint [{ remainingSeconds }] taken from the body.  What
    [result] is plays no further part in the outcome of the pass. *)
Theorem unrecognised_result_is_handled_as_pending (env : Env) (c : Client)
        (w : World) (data : JsValue) :
  date_now env (clock_reads w) - startTime c <= maxDurationMs c ->
  axios_get env (requests w) (status_url c) (request_headers c)
  = AxiosResponse data ->
  readable data ->
  get_prop data "result" <> JsString "completed" ->
  get_prop data "result" <> JsString "error" ->
  loop_body env c w
  = (Continue,
     set_currentDelay
       (pollingStrategy c (attempt c + 1) (currentDelay c)
                        (hint_of (get_prop data "remainingSeconds")))
       (set_attempt (attempt c + 1) c),
     _sleep (currentDelay c) (after_request c w)).
Proof.
  intros Hle Hget [Hnn Hlog] Hc He.
  rewrite (loop_body_in_time env c w Hle), Hget.
  unfold on_response. rewrite Hnn, Hlog.
  destruct (strict_eq_string (get_prop data "result") "completed") eqn:E1.
  { apply strict_eq_string_true in E1. contradiction. }
  destruct (strict_eq_string (get_prop data "result") "error") eqn:E2.
  { apply strict_eq_string_true in E2. contradiction. }
  reflexivity.
Qed.

Lemma unrecognised_result_is_handled_as_pending_witness :
  let env := Scenario.constant_env (Scenario.body "queued" 3) in
  let c := fst (constructor env Scenario.localhost no_options fresh_world) in
  let w := snd (constructor env Scenario.localhost no_options fresh_world) in
  loop_body env c w
  = (Continue,
     set_currentDelay 1000 (set_attempt 1 c),
     mkWorld 2 1 [EvGet "http://localhost:3000/status" []; EvSleep 1000]).
Proof.
  intros env c w.
  apply (unrecognised_result_is_handled_as_pending
           env c w (Scenario.body "queued" 3));
    try reflexivity; try (now split); simpl; try lia; discriminate.
Defined.

(** C4, as stated, fails.  A body [{ result: 'queued', remainingSeconds: 3 }]
    is handled exactly as the same body with [result: 'pending'], and not as a
    failed request: the attempt is counted (1, where a failed request leaves
    0) and the hint is used (next delay 1000, where a failed request gives
    2000). *)
Lemma unrecognised_result_not_a_transport_failure :
  let c :=
    fst (constructor Scenario.rejecting_env Scenario.localhost no_options
                     fresh_world) in
  let w :=
    snd (constructor Scenario.rejecting_env Scenario.localhost no_options
                     fresh_world) in
  let queued :=
    loop_body (Scenario.constant_env (Scenario.body "queued" 3)) c w in
  let pending :=
    loop_body (Scenario.constant_env (Scenario.body "pending" 3)) c w in
  let failed := loop_body Scenario.rejecting_env c w in
  queued = pending
  /\ attempt (step_client queued) = 1
  /\ currentDelay (step_client queued) = 1000
  /\ attempt (step_client failed) = 0
  /\ currentDelay (step_client failed) = 2000
  /\ step_client queued <> step_client failed.
Proof.
  repeat split.
  intros H. apply (f_equal attempt) in H. discriminate H.
Qed.

(** ** The delay *)

Lemma on_response_delay (data : JsValue) (c : Client) (w : World) :
  let r := on_response data c w in
  (step_client r = c /\ effects (step_world r) = effects w)
  \/ (exists hint,
         step_client r
         = set_currentDelay
             (pollingStrategy c (attempt c) (currentDelay c) hint) c
         /\ effects (step_world r) = effects w ++ [EvSleep (currentDelay c)]).
Proof. unfold on_response. break_step; eauto. Qed.

Lemma on_transport_failure_delay (c : Client) (w : World) :
  let r := on_transport_failure c w in
  (step_client r = c /\ effects (step_world r) = effects w)
  \/ (exists hint,
         step_client r
         = set_currentDelay
             (pollingStrategy c (attempt c) (currentDelay c) hint) c
         /\ effects (step_world r) = effects w ++ [EvSleep (currentDelay c)]).
Proof. unfold on_transport_failure. break_step; eauto. Qed.

(** What a pass does with the delay: it either leaves it alone and sleeps
    not at all, or sleeps for the current delay and then stores what the
    strategy returns, as it is. *)
Lemma loop_body_delay (env : Env) (c : Client) (w : World) :
  let r := loop_body env c w in
  (currentDelay (step_client r) = currentDelay c
   /\ sleeps (effects (step_world r)) = sleeps (effects w))
  \/ (exists a hint,
         currentDelay (step_client r)
         = pollingStrategy c a (currentDelay c) hint
         /\ sleeps (effects (step_world r))
            = sleeps (effects w) ++ [currentDelay c]).
Proof.
  unfold loop_body, getStatus, Date_now.
  destruct (_ >? _); simpl; [now left|].
  assert (Hget : forall u h,
             sleeps (effects w ++ [EvGet u h]) = sleeps (effects w)).
  { intros u h. unfold sleeps. rewrite flat_map_app. simpl.
    now rewrite app_nil_r. }
  destruct (axios_get _ _ _ _).
  - match goal with
    | |- context [on_response ?d ?c1 ?w1] =>
        destruct (on_response_delay d c1 w1) as [[Hc Hw]|[hint [Hc Hw]]]
    end; unfold step_client, step_world in *; simpl in Hc, Hw;
      rewrite Hc, Hw; simpl.
    + left. now rewrite Hget.
    + right. exists (attempt c + 1), hint. split; [reflexivity|].
      unfold sleeps at 1. rewrite flat_map_app. fold (sleeps (effects w ++
        [EvGet (status_url c) (request_headers c)])). now rewrite Hget.
  - match goal with
    | |- context [on_transport_failure ?c1 ?w1] =>
        destruct (on_transport_failure_delay c1 w1)
          as [[Hc Hw]|[hint [Hc Hw]]]
    end; unfold step_client, step_world in *; simpl in Hc, Hw;
      rewrite Hc, Hw; simpl.
    + left. now rewrite Hget.
    + right. exists (attempt c), hint. split; [reflexivity|].
      unfold sleeps at 1. rewrite flat_map_app. fold (sleeps (effects w ++
        [EvGet (status_url c) (request_headers c)])). now rewrite Hget.
Qed.

(** C9, as stated, fails.  With a strategy that returns -5 and a server that
    keeps answering pending, the second and third sleeps are for -5 ms and
    [currentDelay] is -5 when the call ends: nothing clamps it. *)
Lemma negative_delay_is_not_clamped :
  let env := Scenario.constant_env (Scenario.body "pending" 9) in
  let options :=
    mkOptions None (Some 3) (Some Scenario.negative_strategy) None None in
  let c := fst (constructor env Scenario.localhost options fresh_world) in
  let w := snd (constructor env Scenario.localhost options fresh_world) in
  let r := waitForCompletion 10 env c w in
  outcome_of r = Finished (Threw (thrown_error c ExhaustedPending))
  /\ sleeps (effects (world_of r)) = [1000; -5; -5]
  /\ currentDelay (client_of r) = -5
  /\ ~ (0 <= currentDelay (client_of r)
        /\ Forall (fun ms => 0 <= ms) (sleeps (effects (world_of r)))).
Proof.
  repeat split.
  intros [H _]. vm_compute in H. now apply H.
Qed.

(** ** How a call can fail *)

(** The four error objects differ in their message. *)
Lemma thrown_error_message_inj (c : Client) (k1 k2 : ErrorKind) :
  err_message (thrown_error c k1) = err_message (thrown_error c k2) ->
  k1 = k2.
Proof.
  destruct k1, k2; intros H; try reflexivity; exfalso;
    try (simpl in H; discriminate H);
    unfold thrown_error, err_message in H; injection H as H;
    apply append_cancel_l in H; try apply append_cancel_l in H;
    discriminate H.
Qed.

Lemma thrown_error_inj (c : Client) (k1 k2 : ErrorKind) :
  thrown_error c k1 = thrown_error c k2 -> k1 = k2.
Proof.
  intros H. apply (thrown_error_message_inj c). now rewrite H.
Qed.

Lemma thrown_error_name (c : Client) (k : ErrorKind) :
  err_name (thrown_error c k) = "Error"%string.
Proof. now destruct k. Qed.

Lemma Threw_inj (e1 e2 : JsError) : Threw e1 = Threw e2 -> e1 = e2.
Proof. intros H. now injection H. Qed.

Lemma thrown_differs (c : Client) (k1 k2 : ErrorKind) :
  k1 <> k2 -> Threw (thrown_error c k1) <> Threw (thrown_error c k2).
Proof.
  intros Hk E. now apply Hk, (thrown_error_inj c), Threw_inj.
Qed.

(** The ways a pass leaves the function. *)
Lemma on_response_leave (data : JsValue) (c : Client) (w : World)
      (r : Completion) :
  step_of (on_response data c w) = Leave r ->
  (~ readable data
   /\ (r = Threw DestructuringTypeError \/ r = Threw ConversionTypeError))
  \/ r = Returned "completed"
  \/ r = Threw (thrown_error c RemoteError).
Proof.
  unfold on_response, readable.
  destruct (nullish data) eqn:Hn.
  { unfold step_of. simpl. intros [= <-]. left. split; [|now left].
    intros [H _]. discriminate H. }
  destruct (log_line_throws _ _) eqn:Hlog.
  { unfold step_of. simpl. intros [= <-]. left. split; [|now right].
    intros [_ H]. discriminate H. }
  break_step; intros [= <-]; auto.
Qed.

Lemma on_transport_failure_leave (c : Client) (w : World) (r : Completion) :
  step_of (on_transport_failure c w) = Leave r ->
  maxAttempts c <= attempt c
  /\ r = Threw (thrown_error c ExhaustedWithTransportErrors).
Proof.
  unfold on_transport_failure. break_step; intros [= <-].
  split; [|reflexivity].
  rewrite Z.geb_leb in Heqb. now apply Z.leb_le.
Qed.

Lemma loop_body_leave (env : Env) (c : Client) (w : World) (r : Completion) :
  step_of (loop_body env c w) = Leave r ->
  r = Threw (thrown_error c Timeout)
  \/ ((r = Threw DestructuringTypeError \/ r = Threw ConversionTypeError)
      /\ exists k url headers data,
          axios_get env k url headers = AxiosResponse data
          /\ ~ readable data)
  \/ r = Returned "completed"
  \/ r = Threw (thrown_error c RemoteError)
  \/ (maxAttempts c <= attempt c
      /\ r = Threw (thrown_error c ExhaustedWithTransportErrors)).
Proof.
  unfold loop_body, getStatus, Date_now.
  destruct (_ >? _); unfold step_of; simpl.
  - intros [= <-]. now left.
  - destruct (axios_get _ _ _ _) as [data|msg] eqn:Hget; intros H.
    + apply on_response_leave in H.
      destruct H as [[Hn Hr]|[->| ->]]; eauto 10.
    + apply on_transport_failure_leave in H. now do 4 right.
Qed.

(** The branch of line 80 is never taken: inside the loop
    [attempt < maxAttempts], and a failed request does not change
    [attempt]. *)
Lemma transport_failure_keeps_attempt (env : Env) (c : Client) (w : World)
      (msg : string) :
  attempt c < maxAttempts c ->
  date_now env (clock_reads w) - startTime c <= maxDurationMs c ->
  axios_get env (requests w) (status_url c) (request_headers c)
  = AxiosRejected msg ->
  loop_body env c w
  = (Continue,
     set_currentDelay
       (pollingStrategy c (attempt c) (currentDelay c) empty_hint) c,
     _sleep (currentDelay c) (after_request c w)).
Proof.
  intros Hlt Hle Hget.
  rewrite (loop_body_in_time env c w Hle), Hget.
  unfold on_transport_failure.
  assert (E : (attempt c >=? maxAttempts c) = false).
  { rewrite Z.geb_leb. apply Z.leb_gt. exact Hlt. }
  now rewrite E.
Qed.

Lemma exhausted_with_transport_errors_unreachable (fuel : nat) (env : Env)
      (c : Client) (w : World) :
  outcome_of (waitForCompletion fuel env c w)
  <> Finished (Threw (thrown_error c ExhaustedWithTransportErrors)).
Proof.
  intros H.
  apply (waitForCompletion_completion env
           (fun c' _ => same_config c c')
           (fun r => r <> Threw (thrown_error c ExhaustedWithTransportErrors))
           (fun c' w' Hc _ => loop_body_same_config env c c' w' Hc))
    with (fuel := fuel) (c := c) (w := w)
         (r := Threw (thrown_error c ExhaustedWithTransportErrors)).
  - intros c' w' r Hc Hlt Hleave.
    apply loop_body_leave in Hleave.
    rewrite !(thrown_error_same_config c c' _ Hc) in Hleave.
    destruct Hleave as [->|[[[-> | ->] _]|[->|[->|[Hge _]]]]];
      first [ now apply thrown_differs | discriminate | lia ].
  - intros c' w' Hc _.
    rewrite (thrown_error_same_config c c' _ Hc).
    now apply thrown_differs.
  - apply same_config_refl.
  - exact H.
  - reflexivity.
Qed.

(** C3, as the code has it.  When every response body is readable (neither
    [null] nor [undefined], with a [result] and a [remainingSeconds] that can
    be turned into the strings of the log line), every failing exit of
    [waitForCompletion] throws the error object of exactly one of the four
    kinds Timeout, RemoteError,
    ExhaustedWithTransportErrors, ExhaustedPending.  All four are plain
    [Error] objects, as is the error of a single failed request thrown by
    [getStatus]: they have the same class and carry no kind, and what tells
    them apart is their message text, which differs between any two kinds and
    from the message of [getStatus]. *)
Theorem failures_differ_in_message_only (fuel : nat) (env : Env) (c : Client)
        (w : World) (e : JsError) :
  readable_bodies env ->
  outcome_of (waitForCompletion fuel env c w) = Finished (Threw e) ->
  (exists k, e = thrown_error c k
             /\ forall k', e = thrown_error c k' -> k' = k)
  /\ (forall k, err_name (thrown_error c k) = "Error"%string)
  /\ (forall k1 k2,
         k1 <> k2 ->
         err_message (thrown_error c k1) <> err_message (thrown_error c k2))
  /\ (forall w' e',
         fst (getStatus env c w') = inr e' ->
         err_name e' = "Error"%string
         /\ forall k, err_message e' <> err_message (thrown_error c k)).
Proof.
  intros Hbodies Hout. repeat split.
  - assert (Hk : exists k, e = thrown_error c k).
    { apply (waitForCompletion_completion env
               (fun c' _ => same_config c c')
               (fun r => forall e0, r = Threw e0 ->
                                    exists k, e0 = thrown_error c k)
               (fun c' w' Hc _ => loop_body_same_config env c c' w' Hc))
        with (fuel := fuel) (c := c) (w := w) (r := Threw e).
      - intros c' w' r Hc _ Hleave e0 ->.
        apply loop_body_leave in Hleave.
        rewrite !(thrown_error_same_config c c' _ Hc) in Hleave.
        destruct Hleave
          as [E|[[_ (k & url & hs & data & Hget & Hn)]|[E|[E|[_ E]]]]];
          try (apply Threw_inj in E; subst e0; eauto; fail);
          try discriminate E.
        exfalso. apply Hn. exact (Hbodies k url hs data Hget).
      - intros c' w' Hc _ e0 E. apply Threw_inj in E. subst e0.
        rewrite (thrown_error_same_config c c' _ Hc). eauto.
      - apply same_config_refl.
      - exact Hout.
      - reflexivity. }
    destruct Hk as [k ->]. exists k. split; [reflexivity|].
    intros k' E. symmetry. now apply (thrown_error_inj c).
  - apply thrown_error_name.
  - intros k1 k2 Hk E. now apply Hk, (thrown_error_message_inj c).
  - unfold getStatus in H. destruct (axios_get _ _ _ _); simpl in H.
    + discriminate H.
    + now injection H as <-.
  - intros k. unfold getStatus in H.
    destruct (axios_get _ _ _ _); simpl in H; [discriminate H|].
    injection H as <-. destruct k; simpl; discriminate.
Qed.

Lemma failures_differ_in_message_only_witness :
  let env := Scenario.constant_env Scenario.error_body in
  let c := fst (constructor env Scenario.localhost no_options fresh_world) in
  let w := snd (constructor env Scenario.localhost no_options fresh_world) in
  (exists k, thrown_error c RemoteError = thrown_error c k
             /\ forall k', thrown_error c RemoteError = thrown_error c k' ->
                           k' = k)
  /\ err_message (thrown_error c Timeout)
     <> err_message (thrown_error c RemoteError).
Proof.
  intros env c w.
  destruct (failures_differ_in_message_only
              3 env c w (thrown_error c RemoteError))
    as (Hkind & _ & Hmsg & _).
  - intros k url hs data Hget. injection Hget as <-. now split.
  - reflexivity.
  - split; [exact Hkind|]. apply Hmsg. discriminate.
Defined.

(** C3, as stated, fails.  A call that times out and a call that is told
    ['error'] by the server throw objects of the same class [Error]; nothing
    but the message text differs between them, and the same holds for every
    two kinds. *)
Lemma failure_kinds_share_the_error_class :
  let late := Scenario.late_start_env in
  let c1 := fst (constructor late Scenario.localhost no_options fresh_world) in
  let w1 := snd (constructor late Scenario.localhost no_options fresh_world) in
  let failing := Scenario.constant_env Scenario.error_body in
  let c2 :=
    fst (constructor failing Scenario.localhost no_options fresh_world) in
  let w2 :=
    snd (constructor failing Scenario.localhost no_options fresh_world) in
  outcome_of (waitForCompletion 5 late c1 w1)
  = Finished
      (Threw (ErrorObject "[ERROR] Timed out after 30000ms without completion."))
  /\ outcome_of (waitForCompletion 5 failing c2 w2)
     = Finished (Threw (thrown_error c2 RemoteError))
  /\ thrown_error c1 Timeout
     = ErrorObject "[ERROR] Timed out after 30000ms without completion."
  /\ err_name (thrown_error c1 Timeout) = err_name (thrown_error c2 RemoteError)
  /\ ~ (forall k1 k2 : ErrorKind,
           k1 <> k2 ->
           err_name (thrown_error c1 k1) <> err_name (thrown_error c1 k2)).
Proof.
  repeat split.
  intros H. apply (H Timeout RemoteError); [discriminate | reflexivity].
Qed.

(** ** The state of the instance across calls *)

Lemma waitForCompletion_late (fuel : nat) (env : Env) (c : Client)
      (w : World) :
  attempt c < maxAttempts c ->
  date_now env (clock_reads w) - startTime c > maxDurationMs c ->
  waitForCompletion (S fuel) env c w
  = (Finished (Threw (thrown_error c Timeout)), c,
     mkWorld (S (clock_reads w)) (requests w) (effects w)).
Proof.
  intros Hlt Hgt. simpl.
  apply Z.ltb_lt in Hlt. rewrite Hlt.
  unfold loop_body, Date_now. now rewrite (gtb_true _ _ Hgt).
Qed.

Lemma waitForCompletion_exhausted (fuel : nat) (env : Env) (c : Client)
      (w : World) :
  maxAttempts c <= attempt c ->
  waitForCompletion fuel env c w
  = (Finished (Threw (thrown_error c ExhaustedPending)), c, w).
Proof.
  intros Hge. apply Z.ltb_ge in Hge.
  destruct fuel; simpl; now rewrite Hge.
Qed.

Lemma waitForCompletion_attempt_mono (fuel : nat) (env : Env) (c : Client)
      (w : World) :
  attempt c <= attempt (client_of (waitForCompletion fuel env c w)).
Proof.
  apply (waitForCompletion_invariant env (fun c' _ => attempt c <= attempt c')).
  - intros c' w' H _.
    destruct (loop_body_attempt env c' w') as [E|E]; rewrite E; lia.
  - lia.
Qed.

(** C2, as the code has it.  The controller state is created once, by the
    constructor: [attempt] is 0, [currentDelay] equals [initialDelay] and
    [startTime] is the clock reading at construction.  [waitForCompletion]
    does not create it anew: a call never lowers [attempt] and never changes
    [startTime], and the state stays on the instance when the call ends.  So a
    call made when [attempt] has already reached [maxAttempts] throws
    ExhaustedPending at once, without a request, and a call whose first clock
    reading is more than [maxDurationMs] after construction throws Timeout at
    once, without a request. *)
Theorem state_is_set_at_construction_and_kept :
  (forall env url options w,
      let c := fst (constructor env url options w) in
      attempt c = 0
      /\ currentDelay c = initialDelay c
      /\ startTime c = date_now env (clock_reads w))
  /\ (forall fuel env c w,
         let c' := client_of (waitForCompletion fuel env c w) in
         attempt c <= attempt c' /\ startTime c' = startTime c)
  /\ (forall fuel env c w,
         maxAttempts c <= attempt c ->
         waitForCompletion fuel env c w
         = (Finished (Threw (thrown_error c ExhaustedPending)), c, w))
  /\ (forall fuel env c w,
         attempt c < maxAttempts c ->
         date_now env (clock_reads w) - startTime c > maxDurationMs c ->
         waitForCompletion (S fuel) env c w
         = (Finished (Threw (thrown_error c Timeout)), c,
            mkWorld (S (clock_reads w)) (requests w) (effects w))).
Proof.
  split; [|split; [|split]].
  - intros env url options w c. repeat split.
  - intros fuel env c w c'. split.
    + apply waitForCompletion_attempt_mono.
    + apply (waitForCompletion_same_config fuel env c w).
  - intros fuel env c w. apply waitForCompletion_exhausted.
  - intros fuel env c w. apply waitForCompletion_late.
Qed.

Lemma state_is_set_at_construction_and_kept_witness :
  let env := Scenario.pending_then_completed_env in
  let c :=
    set_attempt 2
      (fst (constructor env Scenario.localhost (Scenario.with_maxAttempts 2)
                        fresh_world)) in
  let late := Scenario.late_start_env in
  let c' := fst (constructor late Scenario.localhost no_options fresh_world) in
  let w' := snd (constructor late Scenario.localhost no_options fresh_world) in
  waitForCompletion 4 env c fresh_world
  = (Finished (Threw (thrown_error c ExhaustedPending)), c, fresh_world)
  /\ waitForCompletion 1 late c' w'
     = (Finished (Threw (thrown_error c' Timeout)), c', mkWorld 2 0 []).
Proof.
  intros env c late c' w'.
  destruct state_is_set_at_construction_and_kept as (_ & _ & Hdone & Hlate).
  split.
  - apply Hdone. simpl. lia.
  - apply Hlate; simpl; lia.
Defined.

(** C2, as stated, fails.  A client with [maxAttempts = 2] is told pending and
    then completed.  The first call returns ['completed'] and leaves
    [attempt = 2] and [currentDelay = 2000] on the instance; the second call
    starts from these, not from 0 and 1000, and throws ExhaustedPending
    without asking the server, which would have answered completed.  And a
    client built at time 0 whose first call begins at time 40000 times out in
    the first pass of that call: the elapsed time is measured from
    construction. *)
Lemma second_call_is_not_fresh :
  let env := Scenario.pending_then_completed_env in
  let options := Scenario.with_maxAttempts 2 in
  let c0 := fst (constructor env Scenario.localhost options fresh_world) in
  let w0 := snd (constructor env Scenario.localhost options fresh_world) in
  let first := waitForCompletion 10 env c0 w0 in
  let second := waitForCompletion 10 env (client_of first) (world_of first) in
  let late := Scenario.late_start_env in
  let c' := fst (constructor late Scenario.localhost no_options fresh_world) in
  let w' := snd (constructor late Scenario.localhost no_options fresh_world) in
  outcome_of first = Finished (Returned "completed")
  /\ attempt (client_of first) = 2
  /\ currentDelay (client_of first) = 2000
  /\ initialDelay (client_of first) = 1000
  /\ ~ (attempt (client_of first) = 0
        /\ currentDelay (client_of first) = initialDelay (client_of first))
  /\ outcome_of second = Finished (Threw (thrown_error c0 ExhaustedPending))
  /\ requests (world_of second) = requests (world_of first)
  /\ axios_get env (requests (world_of first)) (status_url c0)
               (request_headers c0)
     = AxiosResponse (Scenario.body "completed" 0)
  /\ date_now late (clock_reads w') = 40000
  /\ waitForCompletion 10 late c' w'
     = (Finished (Threw (thrown_error c' Timeout)), c', mkWorld 2 0 []).
Proof.
  repeat split.
  intros [H _]. discriminate H.
Qed.

(** ** Scenario E *)

(** C1, on the code.  With [maxAttempts = 3] and a transport that refuses
    every request, the call does not stop after three requests: a refused
    request leaves [attempt] at 0, so the loop goes on, doubling the delay,
    until the time budget of 30000 ms is spent.  It makes five requests,
    sleeps 1000, 2000, 4000, 8000 and 16000 ms, and throws the Timeout error,
    not the ExhaustedWithTransportErrors one. *)
Theorem refused_requests_are_not_counted :
  let env := Scenario.refusing_env in
  let options := Scenario.with_maxAttempts 3 in
  let c := fst (constructor env Scenario.localhost options fresh_world) in
  let w := snd (constructor env Scenario.localhost options fresh_world) in
  let r := waitForCompletion 10 env c w in
  outcome_of r = Finished (Threw (thrown_error c Timeout))
  /\ outcome_of r
     <> Finished (Threw (thrown_error c ExhaustedWithTransportErrors))
  /\ attempt (client_of r) = 0
  /\ requests (world_of r) = 5%nat
  /\ sleeps (effects (world_of r)) = [1000; 2000; 4000; 8000; 16000]
  /\ outcome_of (waitForCompletion 3 env c w) = OutOfFuel.
Proof.
  repeat split.
  apply exhausted_with_transport_errors_unreachable.
Qed.

(** * Further properties of the client *)

(** ** The pass relation describes the loop body *)

Lemma geb_false (a b : Z) : a < b -> (a >=? b) = false.
Proof. intros H. rewrite Z.geb_leb. now apply Z.leb_gt. Qed.

Lemma geb_true (a b : Z) : b <= a -> (a >=? b) = true.
Proof. intros H. rewrite Z.geb_leb. now apply Z.leb_le. Qed.

Lemma strict_eq_string_false (v : JsValue) (s : string) :
  strict_eq_string v s = false <-> v <> JsString s.
Proof.
  split.
  - intros H E. subst v. simpl in H. rewrite String.eqb_refl in H.
    discriminate H.
  - intros H. destruct (strict_eq_string v s) eqn:E; [|reflexivity].
    apply strict_eq_string_true in E. contradiction.
Qed.

Lemma loop_body_pass (env : Env) (c : Client) (w : World) :
  pass_of env c w (loop_body env c w).
Proof.
  destruct (Z_gt_le_dec (date_now env (clock_reads w) - startTime c)
                        (maxDurationMs c)) as [Hgt|Hle].
  - replace (loop_body env c w)
      with (Leave (Threw (thrown_error c Timeout)), c,
            mkWorld (S (clock_reads w)) (requests w) (effects w)).
    + now constructor.
    + unfold loop_body, Date_now. now rewrite (gtb_true _ _ Hgt).
  - rewrite (loop_body_in_time env c w Hle).
    destruct (axios_get env (requests w) (status_url c) (request_headers c))
      as [data|msg] eqn:Hget.
    + unfold on_response.
      destruct (nullish data) eqn:Hn.
      { now apply pass_nullish with (data := data). }
      destruct (log_line_throws (get_prop data "result")
                                (get_prop data "remainingSeconds")) eqn:Hlog.
      { now apply pass_unprintable with (data := data). }
      assert (Hread : readable data) by now split.
      destruct (strict_eq_string (get_prop data "result") "completed") eqn:E1.
      { apply strict_eq_string_true in E1.
        now apply pass_completed with (data := data). }
      destruct (strict_eq_string (get_prop data "result") "error") eqn:E2.
      { apply strict_eq_string_true in E2.
        now apply (pass_error env c w data). }
      apply strict_eq_string_false in E1, E2.
      now apply (pass_pending env c w data).
    + unfold on_transport_failure.
      destruct (Z_lt_le_dec (attempt c) (maxAttempts c)) as [Hlt|Hge].
      * rewrite (geb_false _ _ Hlt). now apply pass_refused with (msg := msg).
      * rewrite (geb_true _ _ Hge).
        now apply pass_refused_exhausted with (msg := msg).
Qed.

(** Line 95 on a body it cannot print: the attempt has been counted, the
    TypeError leaves the call, nothing is slept. *)
Lemma unprintable_body_throws (env : Env) (c : Client) (w : World)
      (data : JsValue) :
  date_now env (clock_reads w) - startTime c <= maxDurationMs c ->
  axios_get env (requests w) (status_url c) (request_headers c)
  = AxiosResponse data ->
  nullish data = false ->
  log_line_throws (get_prop data "result") (get_prop data "remainingSeconds")
  = true ->
  loop_body env c w
  = (Leave (Threw ConversionTypeError), set_attempt (attempt c + 1) c,
     after_request c w).
Proof.
  intros Hle Hget Hnn Hlog.
  rewrite (loop_body_in_time env c w Hle), Hget.
  unfold on_response. now rewrite Hnn, Hlog.
Qed.

(** Case analysis on the pass made from [c] and [w]. *)
Ltac pass_cases env c w :=
  let Hp := fresh "Hp" in
  pose proof (loop_body_pass env c w) as Hp;
  inversion Hp;
  match goal with
  | E : _ = loop_body env c w |- _ => rewrite <- E in *; clear E
  end;
  clear Hp;
  unfold step_of, step_client, step_world in *;
  cbn [fst snd clock_reads requests effects baseUrl initialDelay maxAttempts
       pollingStrategy maxDurationMs token attempt currentDelay startTime
       after_request _sleep set_attempt set_currentDelay] in *.

Lemma Finished_inj (r1 r2 : Completion) : Finished r1 = Finished r2 -> r1 = r2.
Proof. intros H. now injection H. Qed.

(** ** Reasoning about a whole call *)

Section WholeCall.

Variable env : Env.

(** From a property [P] kept by the passes that continue, a property [Q] of
    the completion together with the client and the world it leaves. *)
Lemma waitForCompletion_finish (P : Client -> World -> Prop)
      (Q : Completion -> Client -> World -> Prop) :
  (forall c w,
      P c w -> attempt c < maxAttempts c ->
      step_of (loop_body env c w) = Continue ->
      P (step_client (loop_body env c w)) (step_world (loop_body env c w))) ->
  (forall c w r,
      P c w -> attempt c < maxAttempts c ->
      step_of (loop_body env c w) = Leave r ->
      Q r (step_client (loop_body env c w)) (step_world (loop_body env c w))) ->
  (forall c w,
      P c w -> maxAttempts c <= attempt c ->
      Q (Threw (thrown_error c ExhaustedPending)) c w) ->
  forall fuel c w r,
    P c w ->
    outcome_of (waitForCompletion fuel env c w) = Finished r ->
    Q r (client_of (waitForCompletion fuel env c w))
      (world_of (waitForCompletion fuel env c w)).
Proof.
  intros Hcont Hleave Hexit fuel.
  assert (Hdone : forall c w r o,
             P c w -> (attempt c <? maxAttempts c) = false ->
             o = (Finished (Threw (thrown_error c ExhaustedPending)), c, w) ->
             outcome_of o = Finished r ->
             Q r (client_of o) (world_of o)).
  { intros c w r o HP Hlt -> E. apply Z.ltb_ge in Hlt.
    unfold outcome_of, client_of, world_of in *. cbn [fst snd] in *.
    apply Finished_inj in E. subst r. now apply Hexit. }
  induction fuel as [|fuel IH]; intros c w r HP; cbn [waitForCompletion].
  - destruct (attempt c <? maxAttempts c) eqn:Hlt.
    + discriminate.
    + now apply (Hdone c w).
  - destruct (attempt c <? maxAttempts c) eqn:Hlt.
    + apply Z.ltb_lt in Hlt.
      specialize (Hcont c w HP Hlt). specialize (Hleave c w).
      destruct (loop_body env c w) as [[[|r'] c'] w'];
        unfold step_of, step_client, step_world in *; cbn [fst snd] in *.
      * intros E. apply IH; [now apply Hcont | exact E].
      * intros E. unfold outcome_of, client_of, world_of in *.
        cbn [fst snd] in *. apply Finished_inj in E. subst r'.
        now apply Hleave.
    + now apply (Hdone c w).
Qed.

(** A call ends within the fuel when some measure of the client and the
    world goes down with every pass that continues. *)
Lemma waitForCompletion_measure (P : Client -> World -> Prop)
      (m : Client -> World -> nat) :
  (forall c w,
      P c w -> attempt c < maxAttempts c ->
      step_of (loop_body env c w) = Continue ->
      P (step_client (loop_body env c w)) (step_world (loop_body env c w))
      /\ (m (step_client (loop_body env c w))
            (step_world (loop_body env c w)) < m c w)%nat) ->
  forall fuel c w,
    P c w ->
    (m c w < fuel)%nat ->
    exists r, outcome_of (waitForCompletion fuel env c w) = Finished r.
Proof.
  intros Hstep fuel.
  induction fuel as [|fuel IH]; intros c w HP Hm; [lia|].
  simpl.
  destruct (attempt c <? maxAttempts c) eqn:Hlt;
    [|eexists; reflexivity].
  apply Z.ltb_lt in Hlt.
  specialize (Hstep c w HP Hlt).
  destruct (loop_body env c w) as [[[|r'] c'] w'];
    unfold step_of, step_client, step_world in *; simpl in *.
  - destruct (Hstep eq_refl) as [HP' Hm']. apply IH; [exact HP'|lia].
  - eexists; reflexivity.
Qed.

End WholeCall.

(** ** The trace of a call *)

Lemma status_url_same_config (c c' : Client) :
  same_config c c' -> status_url c' = status_url c.
Proof. intros (Hb & _). unfold status_url. now rewrite Hb. Qed.

Lemma request_headers_same_config (c c' : Client) :
  same_config c c' -> request_headers c' = request_headers c.
Proof.
  intros (_ & _ & _ & _ & _ & Ht & _). unfold request_headers. now rewrite Ht.
Qed.

Lemma sleeps_app (a b : list Event) : sleeps (a ++ b) = sleeps a ++ sleeps b.
Proof. unfold sleeps. apply flat_map_app. Qed.

Lemma sleeps_of_blocks (c : Client) (blocks : list (list Event)) :
  Forall (request_block c) blocks ->
  (List.length (sleeps (List.concat blocks)) <= List.length blocks)%nat.
Proof.
  induction 1 as [|b blocks Hb _ IH]; simpl; [lia|].
  rewrite sleeps_app, List.length_app.
  destruct Hb as [->|[ms ->]]; simpl; lia.
Qed.

(** X1.  What a call adds to the trace is a sequence of blocks, one for each
    request it makes: the request, to [baseUrl + '/status'] with the headers
    of [getStatus], alone or followed by one sleep.  So the requests all go
    to the same address with the same headers, a sleep only ever comes right
    after a request, and the call sleeps at most as many times as it asks. *)
Theorem requests_and_sleeps_interleave (fuel : nat) (env : Env) (c : Client)
        (w : World) :
  let r := waitForCompletion fuel env c w in
  exists blocks,
    effects (world_of r) = effects w ++ List.concat blocks
    /\ Forall (request_block c) blocks
    /\ requests (world_of r) = (requests w + List.length blocks)%nat
    /\ (List.length (sleeps (List.concat blocks)) <= List.length blocks)%nat.
Proof.
  intros r.
  assert (H : same_config c (client_of r)
              /\ exists blocks,
                  effects (world_of r) = effects w ++ List.concat blocks
                  /\ Forall (request_block c) blocks
                  /\ requests (world_of r)
                     = (requests w + List.length blocks)%nat).
  { apply (waitForCompletion_invariant env
             (fun c' w' =>
                same_config c c'
                /\ exists blocks,
                    effects w' = effects w ++ List.concat blocks
                    /\ Forall (request_block c) blocks
                    /\ requests w' = (requests w + List.length blocks)%nat)).
    - intros c' w' (Hcfg & blocks & Heff & Hall & Hreq) _.
      split; [now apply loop_body_same_config|].
      pose proof (status_url_same_config c c' Hcfg) as Hu.
      pose proof (request_headers_same_config c c' Hcfg) as Hh.
      assert (Hget : forall tail,
                 request_block c
                   (EvGet (status_url c) (request_headers c) :: tail) ->
                 exists blocks',
                   (effects w' ++ [EvGet (status_url c') (request_headers c')])
                   ++ tail = effects w ++ List.concat blocks'
                   /\ Forall (request_block c) blocks'
                   /\ S (requests w') = (requests w + List.length blocks')%nat).
      { intros tail Hb.
        exists (blocks ++ [EvGet (status_url c) (request_headers c) :: tail]).
        rewrite List.concat_app, Heff, Hu, Hh, List.length_app. simpl.
        rewrite app_nil_r, <- !app_assoc. simpl.
        repeat split.
        - apply Forall_app. split; [exact Hall|]. now constructor.
        - lia. }
      pass_cases env c' w'.
      + exists blocks. now repeat split.
      + rewrite <- app_assoc. rewrite app_assoc.
        apply Hget. right. eauto.
      + rewrite <- (app_nil_r (_ ++ [_])). apply Hget. now left.
      + rewrite <- (app_nil_r (_ ++ [_])). apply Hget. now left.
      + rewrite <- (app_nil_r (_ ++ [_])). apply Hget. now left.
      + rewrite <- (app_nil_r (_ ++ [_])). apply Hget. now left.
      + rewrite <- (app_nil_r (_ ++ [_])). apply Hget. now left.
      + rewrite <- app_assoc. rewrite app_assoc.
        apply Hget. right. eauto.
    - split; [apply same_config_refl|].
      exists []. simpl. rewrite app_nil_r. repeat split; [constructor|lia]. }
  destruct H as (_ & blocks & Heff & Hall & Hreq).
  exists blocks. repeat split; try assumption.
  now apply (sleeps_of_blocks c).
Qed.

(** ** Attempts, requests and clock readings *)

(** X2.  In a call, every counted attempt is an answered request and every
    request follows a clock reading of its own: [attempt] grows by no more
    than the number of requests, which is no more than the number of clock
    readings.  When the transport answers every request, [attempt] grows by
    exactly the number of requests. *)
Theorem attempts_requests_and_clock_readings (fuel : nat) (env : Env)
        (c : Client) (w : World) :
  let r := waitForCompletion fuel env c w in
  let made := Z.of_nat (requests (world_of r)) - Z.of_nat (requests w) in
  let read := Z.of_nat (clock_reads (world_of r)) - Z.of_nat (clock_reads w) in
  0 <= attempt (client_of r) - attempt c <= made
  /\ made <= read
  /\ (never_rejects env -> attempt (client_of r) - attempt c = made).
Proof.
  intros r made read. subst made read.
  apply (waitForCompletion_invariant env
           (fun c' w' =>
              0 <= attempt c' - attempt c
                <= Z.of_nat (requests w') - Z.of_nat (requests w)
              /\ Z.of_nat (requests w') - Z.of_nat (requests w)
                 <= Z.of_nat (clock_reads w') - Z.of_nat (clock_reads w)
              /\ (never_rejects env ->
                  attempt c' - attempt c
                  = Z.of_nat (requests w') - Z.of_nat (requests w)))).
  - intros c' w' (Ha & Hr & Hn) _.
    pass_cases env c' w'; repeat split; try lia;
      intros Hnever; specialize (Hn Hnever); try lia;
      destruct (Hnever (requests w') (status_url c') (request_headers c'))
        as [data Hdata]; congruence.
  - repeat split; lia.
Qed.

Lemma attempts_requests_and_clock_readings_witness :
  let env := Scenario.constant_env (Scenario.body "pending" 9) in
  let c :=
    fst (constructor env Scenario.localhost (Scenario.with_maxAttempts 3)
                     fresh_world) in
  let r := waitForCompletion 10 env c fresh_world in
  attempt (client_of r) - attempt c
  = Z.of_nat (requests (world_of r)) - Z.of_nat (requests fresh_world).
Proof.
  intros env c.
  apply (attempts_requests_and_clock_readings 10 env c fresh_world).
  intros k url headers. eexists. reflexivity.
Defined.

(** ** When a call is sure to end *)

(** X3.  When the transport answers every request, a call ends within
    [maxAttempts - attempt] passes (one more pass of fuel than that is
    enough), whatever the answers and the clock are; and it makes at most
    [maxAttempts - attempt] requests, none when [attempt] has already reached
    [maxAttempts]. *)
Theorem answered_requests_end_the_call (fuel : nat) (env : Env) (c : Client)
        (w : World) :
  never_rejects env ->
  (Z.to_nat (maxAttempts c - attempt c) < fuel)%nat ->
  let r := waitForCompletion fuel env c w in
  (exists res, outcome_of r = Finished res)
  /\ Z.of_nat (requests (world_of r)) - Z.of_nat (requests w)
     <= Z.max 0 (maxAttempts c - attempt c).
Proof.
  intros Hnever Hfuel r. split.
  - apply (waitForCompletion_measure env
             (fun _ _ => True)
             (fun c' _ => Z.to_nat (maxAttempts c' - attempt c')));
      [|exact I|exact Hfuel].
    intros c' w' _ Hlt Hcont. split; [exact I|].
    pass_cases env c' w'; try discriminate Hcont; try lia.
    destruct (Hnever (requests w') (status_url c') (request_headers c'))
      as [data Hdata]. congruence.
  - assert (H : maxAttempts (client_of r) = maxAttempts c
                /\ attempt c <= attempt (client_of r)
                /\ attempt (client_of r) <= Z.max (attempt c) (maxAttempts c)
                /\ Z.of_nat (requests (world_of r)) - Z.of_nat (requests w)
                   = attempt (client_of r) - attempt c).
    { apply (waitForCompletion_invariant env
               (fun c' w' =>
                  maxAttempts c' = maxAttempts c
                  /\ attempt c <= attempt c'
                  /\ attempt c' <= Z.max (attempt c) (maxAttempts c)
                  /\ Z.of_nat (requests w') - Z.of_nat (requests w)
                     = attempt c' - attempt c)); [|lia].
      intros c' w' (Hmax & Hlo & Hhi & Hreq) Hlt.
      pass_cases env c' w'; repeat split; try lia;
        destruct (Hnever (requests w') (status_url c') (request_headers c'))
          as [data Hdata]; congruence. }
    lia.
Qed.

Lemma answered_requests_end_the_call_witness :
  let env := Scenario.constant_env (Scenario.body "pending" 9) in
  let c :=
    fst (constructor env Scenario.localhost (Scenario.with_maxAttempts 3)
                     fresh_world) in
  let r := waitForCompletion 4 env c fresh_world in
  (exists res, outcome_of r = Finished res)
  /\ Z.of_nat (requests (world_of r)) - Z.of_nat (requests fresh_world)
     <= Z.max 0 (maxAttempts c - attempt c).
Proof.
  intros env c.
  apply (answered_requests_end_the_call 4 env c fresh_world).
  - intros k url headers. eexists. reflexivity.
  - simpl. lia.
Defined.

(** X4.  The time budget ends the call as soon as the clock is past it: when
    every clock reading from the [K]-th on is more than [maxDurationMs] after
    [startTime], a call that starts with [n] readings already taken ends
    within [K - n + 1] passes, however the transport behaves. *)
Theorem passed_deadline_ends_the_call (fuel : nat) (env : Env) (c : Client)
        (w : World) (K : nat) :
  (forall k, (K <= k)%nat ->
             date_now env k - startTime c > maxDurationMs c) ->
  (K - clock_reads w < fuel)%nat ->
  exists res, outcome_of (waitForCompletion fuel env c w) = Finished res.
Proof.
  intros Hlate Hfuel.
  apply (waitForCompletion_measure env
           (fun c' _ => same_config c c')
           (fun _ w' => (K - clock_reads w')%nat));
    [|apply same_config_refl|exact Hfuel].
  intros c' w' Hcfg Hlt Hcont.
  split; [now apply loop_body_same_config|].
  destruct Hcfg as (_ & _ & _ & _ & Hdur & _ & Hstart).
  destruct (le_lt_dec K (clock_reads w')) as [Hge|Hless].
  - specialize (Hlate _ Hge). rewrite <- Hdur, <- Hstart in Hlate.
    pass_cases env c' w'; try discriminate Hcont; lia.
  - pass_cases env c' w'; try discriminate Hcont; lia.
Qed.

Lemma passed_deadline_ends_the_call_witness :
  let env := Scenario.refusing_env in
  let c :=
    fst (constructor env Scenario.localhost (Scenario.with_maxAttempts 3)
                     fresh_world) in
  let w :=
    snd (constructor env Scenario.localhost (Scenario.with_maxAttempts 3)
                     fresh_world) in
  exists res, outcome_of (waitForCompletion 6 env c w) = Finished res.
Proof.
  intros env c w.
  apply (passed_deadline_ends_the_call 6 env c w 6).
  - intros k Hk.
    destruct k as [|j]; [lia|].
    change (1000 * (2 ^ Z.of_nat j - 1) - 0 > 30000).
    assert (2 ^ 5 <= 2 ^ Z.of_nat j) by (apply Z.pow_le_mono_r; lia).
    lia.
  - simpl. lia.
Defined.

(** ** What the way a call ends tells about its last pass *)

Lemma Leave_inj (r1 r2 : Completion) : Leave r1 = Leave r2 -> r1 = r2.
Proof. intros H. now injection H. Qed.

(** Closes a case in which the pass left with another completion than the
    one under study. *)
Ltac other_completion c H :=
  exfalso;
  first
    [ discriminate H
    | apply Leave_inj in H;
      first
        [ discriminate H
        | match goal with
          | Hc : same_config c ?c' |- _ =>
              rewrite ?(thrown_error_same_config c c' _ Hc) in H
          end;
          revert H; apply thrown_differs; discriminate
        | revert H; apply thrown_differs; discriminate ] ].

(** X5.  A call that returns, returns ['completed'], and it does so right
    after a request that was answered with [result === 'completed']: that
    request is the last one made and the last effect of the call. *)
Theorem returned_means_last_answer_completed (fuel : nat) (env : Env)
        (c : Client) (w : World) (v : string) :
  let r := waitForCompletion fuel env c w in
  outcome_of r = Finished (Returned v) ->
  v = "completed"%string
  /\ exists k data evs,
      requests (world_of r) = S k
      /\ axios_get env k (status_url c) (request_headers c)
         = AxiosResponse data
      /\ get_prop data "result" = JsString "completed"
      /\ effects (world_of r)
         = evs ++ [EvGet (status_url c) (request_headers c)].
Proof.
  intros r Hout.
  apply (waitForCompletion_finish env
           (fun c' _ => same_config c c')
           (fun res c' w' =>
              res = Returned v ->
              v = "completed"%string
              /\ exists k data evs,
                  requests w' = S k
                  /\ axios_get env k (status_url c) (request_headers c)
                     = AxiosResponse data
                  /\ get_prop data "result" = JsString "completed"
                  /\ effects w'
                     = evs ++ [EvGet (status_url c) (request_headers c)]))
    with (fuel := fuel) (c := c) (w := w) (r := Returned v);
    try exact Hout; try reflexivity; try apply same_config_refl.
  - intros c' w' Hc _ _. now apply loop_body_same_config.
  - intros c' w' res Hc _ Hleave ->.
    pose proof (status_url_same_config c c' Hc) as Hu.
    pose proof (request_headers_same_config c c' Hc) as Hh.
    pass_cases env c' w'; try (other_completion c Hleave).
    apply Leave_inj in Hleave. injection Hleave as <-.
    split; [reflexivity|].
    exists (requests w'), data, (effects w').
    rewrite <- Hu, <- Hh. now repeat split.
  - intros c' w' _ _ E. discriminate E.
Qed.

Lemma returned_means_last_answer_completed_witness :
  let env := Scenario.pending_then_completed_env in
  let c :=
    fst (constructor env Scenario.localhost (Scenario.with_maxAttempts 2)
                     fresh_world) in
  let r := waitForCompletion 10 env c fresh_world in
  "completed"%string = "completed"%string
  /\ exists k data evs,
      requests (world_of r) = S k
      /\ axios_get env k (status_url c) (request_headers c)
         = AxiosResponse data
      /\ get_prop data "result" = JsString "completed"
      /\ effects (world_of r)
         = evs ++ [EvGet (status_url c) (request_headers c)].
Proof.
  intros env c.
  apply (returned_means_last_answer_completed 10 env c fresh_world).
  reflexivity.
Defined.

(** X6.  A call that throws the RemoteError error does so right after a
    request that was answered with [result === 'error']: that request is the
    last one made and the last effect of the call, so nothing was slept
    after it. *)
Theorem remote_error_means_last_answer_error (fuel : nat) (env : Env)
        (c : Client) (w : World) :
  let r := waitForCompletion fuel env c w in
  outcome_of r = Finished (Threw (thrown_error c RemoteError)) ->
  exists k data evs,
    requests (world_of r) = S k
    /\ axios_get env k (status_url c) (request_headers c) = AxiosResponse data
    /\ get_prop data "result" = JsString "error"
    /\ effects (world_of r)
       = evs ++ [EvGet (status_url c) (request_headers c)].
Proof.
  intros r Hout.
  apply (waitForCompletion_finish env
           (fun c' _ => same_config c c')
           (fun res c' w' =>
              res = Threw (thrown_error c RemoteError) ->
              exists k data evs,
                requests w' = S k
                /\ axios_get env k (status_url c) (request_headers c)
                   = AxiosResponse data
                /\ get_prop data "result" = JsString "error"
                /\ effects w'
                   = evs ++ [EvGet (status_url c) (request_headers c)]))
    with (fuel := fuel) (c := c) (w := w)
         (r := Threw (thrown_error c RemoteError));
    try exact Hout; try reflexivity; try apply same_config_refl.
  - intros c' w' Hc _ _. now apply loop_body_same_config.
  - intros c' w' res Hc _ Hleave ->.
    pose proof (status_url_same_config c c' Hc) as Hu.
    pose proof (request_headers_same_config c c' Hc) as Hh.
    pass_cases env c' w'; try (other_completion c Hleave).
    exists (requests w'), data, (effects w').
    rewrite <- Hu, <- Hh. now repeat split.
  - intros c' w' Hc _ E. exfalso.
    rewrite (thrown_error_same_config c c' _ Hc) in E.
    revert E. apply thrown_differs. discriminate.
Qed.

Lemma remote_error_means_last_answer_error_witness :
  let env := Scenario.constant_env Scenario.error_body in
  let c := fst (constructor env Scenario.localhost no_options fresh_world) in
  let r := waitForCompletion 10 env c fresh_world in
  exists k data evs,
    requests (world_of r) = S k
    /\ axios_get env k (status_url c) (request_headers c) = AxiosResponse data
    /\ get_prop data "result" = JsString "error"
    /\ effects (world_of r)
       = evs ++ [EvGet (status_url c) (request_headers c)].
Proof.
  intros env c.
  apply (remote_error_means_last_answer_error 10 env c fresh_world).
  reflexivity.
Defined.

(** The state a call is in when it has thrown the Timeout error. *)
Lemma timeout_exit (fuel : nat) (env : Env) (c : Client)
        (w : World) :
  let r := waitForCompletion fuel env c w in
  outcome_of r = Finished (Threw (thrown_error c Timeout)) ->
  attempt (client_of r) < maxAttempts c
  /\ exists k,
      clock_reads (world_of r) = S k
      /\ date_now env k - startTime c > maxDurationMs c.
Proof.
  intros r Hout.
  apply (waitForCompletion_finish env
           (fun c' _ => same_config c c')
           (fun res c' w' =>
              res = Threw (thrown_error c Timeout) ->
              attempt c' < maxAttempts c
              /\ exists k,
                  clock_reads w' = S k
                  /\ date_now env k - startTime c > maxDurationMs c))
    with (fuel := fuel) (c := c) (w := w)
         (r := Threw (thrown_error c Timeout));
    try exact Hout; try reflexivity; try apply same_config_refl.
  - intros c' w' Hc _ _. now apply loop_body_same_config.
  - intros c' w' res Hc Hlt Hleave ->.
    pose proof Hc as (_ & _ & Hmax & _ & Hdur & _ & Hstart).
    pass_cases env c' w'; try (other_completion c Hleave).
    split; [lia|].
    exists (clock_reads w'). split; [reflexivity|lia].
  - intros c' w' Hc _ E. exfalso.
    rewrite (thrown_error_same_config c c' _ Hc) in E.
    revert E. apply thrown_differs. discriminate.
Qed.

(** X7.  A call that throws the Timeout error does so right after reading
    the clock: that reading, the last one taken, is more than [maxDurationMs]
    after [startTime], and the attempt budget was not yet used up. *)
Theorem timeout_means_budget_exceeded (fuel : nat) (env : Env) (c : Client)
        (w : World) :
  let r := waitForCompletion fuel env c w in
  outcome_of r = Finished (Threw (thrown_error c Timeout)) ->
  attempt (client_of r) < maxAttempts c
  /\ exists k,
      clock_reads (world_of r) = S k
      /\ date_now env k - startTime c > maxDurationMs c.
Proof. exact (timeout_exit fuel env c w). Qed.

Lemma timeout_means_budget_exceeded_witness :
  let env := Scenario.late_start_env in
  let c := fst (constructor env Scenario.localhost no_options fresh_world) in
  let w := snd (constructor env Scenario.localhost no_options fresh_world) in
  let r := waitForCompletion 5 env c w in
  attempt (client_of r) < maxAttempts c
  /\ exists k,
      clock_reads (world_of r) = S k
      /\ date_now env k - startTime c > maxDurationMs c.
Proof.
  intros env c w.
  apply (timeout_means_budget_exceeded 5 env c w). reflexivity.
Defined.

(** X8.  A call that entered the loop and throws the ExhaustedPending error
    has used the attempt budget exactly, and the last thing it did was to
    sleep: after the answer to its last request it still waited for the
    current delay before giving up. *)
Theorem exhausted_pending_comes_after_a_sleep (fuel : nat) (env : Env)
        (c : Client) (w : World) :
  attempt c < maxAttempts c ->
  let r := waitForCompletion fuel env c w in
  outcome_of r = Finished (Threw (thrown_error c ExhaustedPending)) ->
  attempt (client_of r) = maxAttempts c
  /\ exists evs ms, effects (world_of r) = evs ++ [EvSleep ms].
Proof.
  intros Hfirst r Hout.
  apply (waitForCompletion_finish env
           (fun c' w' =>
              same_config c c'
              /\ attempt c' <= maxAttempts c
              /\ ((c' = c /\ w' = w)
                  \/ exists evs ms, effects w' = evs ++ [EvSleep ms]))
           (fun res c' w' =>
              res = Threw (thrown_error c ExhaustedPending) ->
              attempt c' = maxAttempts c
              /\ exists evs ms, effects w' = evs ++ [EvSleep ms]))
    with (fuel := fuel) (c := c) (w := w)
         (r := Threw (thrown_error c ExhaustedPending));
    try exact Hout; try reflexivity.
  - intros c' w' (Hc & Hle & _) Hlt Hcont.
    split; [now apply loop_body_same_config|].
    pose proof Hc as (_ & _ & Hmax & _).
    pass_cases env c' w'; try discriminate Hcont;
      (split; [lia|right; eauto]).
  - intros c' w' res (Hc & _) Hlt Hleave ->.
    pass_cases env c' w'; first [exfalso; lia | other_completion c Hleave].
  - intros c' w' (Hc & Hle & Hlast) Hge _.
    pose proof Hc as (_ & _ & Hmax & _).
    split; [lia|].
    destruct Hlast as [[-> _]|Hlast]; [lia|exact Hlast].
  - split; [apply same_config_refl|]. split; [lia|]. now left.
Qed.

Lemma exhausted_pending_comes_after_a_sleep_witness :
  let env := Scenario.constant_env (Scenario.body "pending" 9) in
  let c :=
    fst (constructor env Scenario.localhost (Scenario.with_maxAttempts 1)
                     fresh_world) in
  let r := waitForCompletion 3 env c fresh_world in
  attempt (client_of r) = 1
  /\ exists evs ms, effects (world_of r) = evs ++ [EvSleep ms].
Proof.
  intros env c.
  apply (exhausted_pending_comes_after_a_sleep 3 env c fresh_world).
  - simpl. lia.
  - reflexivity.
Defined.

(** ** A used-up instance *)

Lemma exhausted_exit (fuel : nat) (env : Env) (c : Client) (w : World) :
  let r := waitForCompletion fuel env c w in
  outcome_of r = Finished (Threw (thrown_error c ExhaustedPending)) ->
  maxAttempts (client_of r) <= attempt (client_of r).
Proof.
  intros r Hout.
  apply (waitForCompletion_finish env
           (fun c' _ => same_config c c')
           (fun res c' _ =>
              res = Threw (thrown_error c ExhaustedPending) ->
              maxAttempts c' <= attempt c'))
    with (fuel := fuel) (c := c) (w := w)
         (r := Threw (thrown_error c ExhaustedPending));
    try exact Hout; try reflexivity; try apply same_config_refl.
  - intros c' w' Hc _ _. now apply loop_body_same_config.
  - intros c' w' res Hc Hlt Hleave ->.
    pass_cases env c' w'; first [exfalso; lia | other_completion c Hleave].
  - intros c' w' _ Hge _. exact Hge.
Qed.

(** X9.  An instance on which a call has thrown the ExhaustedPending error is
    used up: every later call on it, with whatever transport and clock,
    throws the same error at once and does nothing else (no clock reading, no
    request, no sleep, no change of the instance). *)
Theorem exhausted_instance_stays_exhausted (fuel : nat) (env : Env)
        (c : Client) (w : World) (fuel' : nat) (env' : Env) (w' : World) :
  let r := waitForCompletion fuel env c w in
  outcome_of r = Finished (Threw (thrown_error c ExhaustedPending)) ->
  waitForCompletion fuel' env' (client_of r) w'
  = (Finished (Threw (thrown_error c ExhaustedPending)), client_of r, w').
Proof.
  intros r Hout.
  rewrite (waitForCompletion_exhausted fuel' env' (client_of r) w'
             (exhausted_exit fuel env c w Hout)).
  now rewrite (thrown_error_same_config c (client_of r) _
                 (waitForCompletion_same_config fuel env c w)).
Qed.

Lemma exhausted_instance_stays_exhausted_witness :
  let env := Scenario.constant_env (Scenario.body "pending" 9) in
  let c :=
    fst (constructor env Scenario.localhost (Scenario.with_maxAttempts 2)
                     fresh_world) in
  let r := waitForCompletion 5 env c fresh_world in
  let env' := Scenario.constant_env (Scenario.body "completed" 0) in
  waitForCompletion 5 env' (client_of r) (world_of r)
  = (Finished (Threw (thrown_error c ExhaustedPending)),
     client_of r, world_of r).
Proof.
  intros env c r env'.
  apply (exhausted_instance_stays_exhausted 5 env c fresh_world 5 env'
                                            (world_of r)).
  reflexivity.
Defined.

(** X10.  An instance on which a call has timed out stays timed out as long
    as the clock does not go back: with a clock whose readings never
    decrease, every later call on the instance throws the Timeout error in
    its first pass, after one clock reading and without a request. *)
Theorem timed_out_instance_stays_timed_out (fuel : nat) (env : Env)
        (c : Client) (w : World) (fuel' : nat) :
  (forall k k', (k <= k')%nat -> date_now env k <= date_now env k') ->
  let r := waitForCompletion fuel env c w in
  outcome_of r = Finished (Threw (thrown_error c Timeout)) ->
  waitForCompletion (S fuel') env (client_of r) (world_of r)
  = (Finished (Threw (thrown_error c Timeout)), client_of r,
     mkWorld (S (clock_reads (world_of r))) (requests (world_of r))
             (effects (world_of r))).
Proof.
  intros Hclock r Hout.
  destruct (timeout_exit fuel env c w Hout) as (Hlt & k & Hk & Hlate).
  pose proof (waitForCompletion_same_config fuel env c w) as Hc.
  fold r in Hlt, Hk, Hc.
  pose proof Hc as (_ & _ & Hmax & _ & Hdur & _ & Hstart).
  rewrite (waitForCompletion_late fuel' env (client_of r) (world_of r)).
  - now rewrite (thrown_error_same_config c (client_of r) _ Hc).
  - lia.
  - rewrite Hdur, Hstart, Hk.
    specialize (Hclock k (S k)). lia.
Qed.

Lemma timed_out_instance_stays_timed_out_witness :
  let env := Scenario.late_start_env in
  let c := fst (constructor env Scenario.localhost no_options fresh_world) in
  let w := snd (constructor env Scenario.localhost no_options fresh_world) in
  let r := waitForCompletion 5 env c w in
  waitForCompletion 1 env (client_of r) (world_of r)
  = (Finished (Threw (thrown_error c Timeout)), client_of r,
     mkWorld (S (clock_reads (world_of r))) (requests (world_of r))
             (effects (world_of r))).
Proof.
  intros env c w r.
  apply (timed_out_instance_stays_timed_out 5 env c w 0).
  - intros k k' Hle. destruct k, k'; simpl; lia.
  - reflexivity.
Defined.

(** ** The delays of a call *)

Lemma delay_chain_snoc (next : Z -> Z -> Prop) (d : Z) (l : list Z)
      (d' d'' : Z) :
  delay_chain next d l d' -> next d' d'' ->
  delay_chain next d (l ++ [d']) d''.
Proof.
  induction 1 as [d|d d1 l d' Hn _ IH]; intros Hnext; simpl.
  - apply chain_sleep with (d1 := d''); [exact Hnext|constructor].
  - apply chain_sleep with (d1 := d1); [exact Hn|now apply IH].
Qed.

Lemma delay_chain_impl (next next' : Z -> Z -> Prop) (d : Z) (l : list Z)
      (d' : Z) :
  (forall a b, next a b -> next' a b) ->
  delay_chain next d l d' -> delay_chain next' d l d'.
Proof.
  intros Himpl. induction 1 as [d|d d1 l d' Hn _ IH].
  - constructor.
  - apply chain_sleep with (d1 := d1); [now apply Himpl|exact IH].
Qed.

(** The sleeps of a call follow the strategy: the first lasts the delay the
    call starts with, each next one what the strategy made of the one
    before. *)
Lemma sleeps_chain (fuel : nat) (env : Env) (c : Client) (w : World) :
  let r := waitForCompletion fuel env c w in
  exists l,
    sleeps (effects (world_of r)) = sleeps (effects w) ++ l
    /\ delay_chain (fun d d' => exists a hint, d' = pollingStrategy c a d hint)
                   (currentDelay c) l (currentDelay (client_of r)).
Proof.
  intros r.
  assert (H : same_config c (client_of r)
              /\ exists l,
                  sleeps (effects (world_of r)) = sleeps (effects w) ++ l
                  /\ delay_chain
                       (fun d d' => exists a hint,
                                      d' = pollingStrategy c a d hint)
                       (currentDelay c) l (currentDelay (client_of r))).
  { apply (waitForCompletion_invariant env
             (fun c' w' =>
                same_config c c'
                /\ exists l,
                    sleeps (effects w') = sleeps (effects w) ++ l
                    /\ delay_chain
                         (fun d d' => exists a hint,
                                        d' = pollingStrategy c a d hint)
                         (currentDelay c) l (currentDelay c'))).
    - intros c' w' (Hc & l & Hl & Hchain) _.
      split; [now apply loop_body_same_config|].
      pose proof Hc as (_ & _ & _ & Hps & _).
      destruct (loop_body_delay env c' w') as [[E1 E2]|(a & hint & E1 & E2)];
        rewrite E1, E2.
      + now exists l.
      + exists (l ++ [currentDelay c']). split.
        * now rewrite Hl, app_assoc.
        * apply delay_chain_snoc; [exact Hchain|].
          exists a, hint. now rewrite Hps.
    - split; [apply same_config_refl|].
      exists []. split; [now rewrite app_nil_r|constructor]. }
  exact (proj2 H).
Qed.

Lemma chain_lower_bound (next : Z -> Z -> Prop) (m : Z) :
  (forall a b, m <= a -> next a b -> m <= b) ->
  forall d l d',
    delay_chain next d l d' -> m <= d ->
    Forall (fun ms => m <= ms) l /\ m <= d'.
Proof.
  intros Hnext. induction 1 as [d|d d1 l d' Hn _ IH]; intros Hd.
  - split; [constructor|exact Hd].
  - destruct (IH (Hnext _ _ Hd Hn)) as [Hall Hd'].
    split; [now constructor|exact Hd'].
Qed.

Lemma chain_keeps (next : Z -> Z -> Prop) (good : Z -> Prop) :
  (forall a b, good a -> next a b -> good b) ->
  forall d l d',
    delay_chain next d l d' -> good d -> Forall good l /\ good d'.
Proof.
  intros Hnext. induction 1 as [d|d d1 l d' Hn _ IH]; intros Hd.
  - split; [constructor|exact Hd].
  - destruct (IH (Hnext _ _ Hd Hn)) as [Hall Hd'].
    split; [now constructor|exact Hd'].
Qed.

(** C9, as the code has it.  The delay is never clamped: the first sleep of
    a call lasts the delay the call starts with, each later one lasts what
    the strategy returned for the delay before, and the delay the call ends
    with is the last of these values.  So whatever holds of the starting
    delay and is kept by the strategy (being a non-negative integer, for a
    strategy that returns one whenever the previous delay is one, as the
    default strategy does) holds of every sleep and of the delay in the
    end. *)
Theorem delay_nonneg_when_strategy_keeps_it (fuel : nat) (env : Env)
        (c : Client) (w : World) (good : Z -> Prop) :
  good (currentDelay c) ->
  (forall a d hint, good d -> good (pollingStrategy c a d hint)) ->
  let r := waitForCompletion fuel env c w in
  exists l,
    sleeps (effects (world_of r)) = sleeps (effects w) ++ l
    /\ delay_chain (fun d d' => exists a hint, d' = pollingStrategy c a d hint)
                   (currentDelay c) l (currentDelay (client_of r))
    /\ Forall good l
    /\ good (currentDelay (client_of r)).
Proof.
  intros Hd Hstrat r.
  destruct (sleeps_chain fuel env c w) as (l & Hl & Hchain).
  fold r in Hl, Hchain.
  exists l. split; [exact Hl|]. split; [exact Hchain|].
  apply (chain_keeps
           (fun d d' => exists a hint, d' = pollingStrategy c a d hint) good)
    with (d := currentDelay c); [|exact Hchain|exact Hd].
  intros a b Ha (x & hint & ->). now apply Hstrat.
Qed.

Lemma delay_nonneg_when_strategy_keeps_it_witness :
  let env := Scenario.constant_env (Scenario.body "pending" 9) in
  let c :=
    fst (constructor env Scenario.localhost (Scenario.with_maxAttempts 3)
                     fresh_world) in
  let r := waitForCompletion 10 env c fresh_world in
  exists l,
    sleeps (effects (world_of r)) = sleeps (effects fresh_world) ++ l
    /\ delay_chain (fun d d' => exists a hint, d' = pollingStrategy c a d hint)
                   (currentDelay c) l (currentDelay (client_of r))
    /\ Forall (fun ms => 0 <= ms) l
    /\ 0 <= currentDelay (client_of r).
Proof.
  intros env c.
  apply (delay_nonneg_when_strategy_keeps_it
           10 env c fresh_world (fun ms => 0 <= ms)).
  - simpl. lia.
  - intros a d hint. apply defaultPollingStrategy_nonneg.
Defined.

Lemma defaultPollingStrategy_cases (a d : Z) (hint : JsValue) :
  defaultPollingStrategy a d hint = 1000
  \/ defaultPollingStrategy a d hint = d * 2.
Proof. unfold defaultPollingStrategy. destruct (_ && _ && _); auto. Qed.

(** X11.  With the default strategy the first sleep of a call lasts
    [currentDelay] and every later one lasts either 1000 ms or twice the one
    before, whatever the transport answers.  So when the call starts with a
    non-negative delay, it never sleeps less than the smaller of 1000 ms and
    that delay. *)
Theorem default_strategy_sleeps (fuel : nat) (env : Env) (c : Client)
        (w : World) :
  pollingStrategy c = defaultPollingStrategy ->
  let r := waitForCompletion fuel env c w in
  exists l,
    sleeps (effects (world_of r)) = sleeps (effects w) ++ l
    /\ delay_chain (fun d d' => d' = 1000 \/ d' = d * 2)
                   (currentDelay c) l (currentDelay (client_of r))
    /\ (0 <= currentDelay c ->
        Forall (fun ms => Z.min 1000 (currentDelay c) <= ms) l).
Proof.
  intros Hps r.
  destruct (sleeps_chain fuel env c w) as (l & Hl & Hchain).
  fold r in Hl, Hchain.
  assert (Hchain' : delay_chain (fun d d' => d' = 1000 \/ d' = d * 2)
                                (currentDelay c) l (currentDelay (client_of r))).
  { apply delay_chain_impl
      with (next := fun d d' => exists a hint,
                                  d' = pollingStrategy c a d hint);
      [|exact Hchain].
    intros a b (x & hint & ->). rewrite Hps.
    apply defaultPollingStrategy_cases. }
  exists l. repeat split; try assumption.
  intros Hpos.
  apply (chain_lower_bound (fun d d' => d' = 1000 \/ d' = d * 2)
                           (Z.min 1000 (currentDelay c)))
    with (d := currentDelay c) (d' := currentDelay (client_of r));
    [|exact Hchain'|lia].
  intros a b Ha [-> | ->]; lia.
Qed.

Lemma default_strategy_sleeps_witness :
  let env := Demo.flaky_env in
  let c :=
    fst (constructor env Scenario.localhost (Scenario.with_maxAttempts 3)
                     fresh_world) in
  let r := waitForCompletion 10 env c fresh_world in
  exists l,
    sleeps (effects (world_of r)) = sleeps (effects fresh_world) ++ l
    /\ delay_chain (fun d d' => d' = 1000 \/ d' = d * 2)
                   (currentDelay c) l (currentDelay (client_of r))
    /\ (0 <= currentDelay c ->
        Forall (fun ms => Z.min 1000 (currentDelay c) <= ms) l).
Proof.
  intros env c.
  apply (default_strategy_sleeps 10 env c fresh_world). reflexivity.
Defined.

Lemma iterated_delays_snoc (f : Z -> Z) (n : nat) (d : Z) :
  iterated_delays f d n ++ [Nat.iter n f d] = iterated_delays f d (S n).
Proof.
  revert d. induction n as [|n IH]; intros d; [reflexivity|].
  change (d :: (iterated_delays f (f d) n ++ [Nat.iter (S n) f d])
          = d :: iterated_delays f (f d) (S n)).
  now rewrite Nat.iter_succ_r, IH.
Qed.

Lemma iter_double (n : nat) (d : Z) :
  Nat.iter n (fun x => x * 2) d = d * 2 ^ Z.of_nat n.
Proof.
  induction n as [|n IH].
  - simpl. lia.
  - rewrite Nat.iter_succ, IH, Nat2Z.inj_succ, Z.pow_succ_r by lia. lia.
Qed.

Lemma iter_add (k : Z) (n : nat) (d : Z) :
  Nat.iter n (fun x => x + k) d = d + k * Z.of_nat n.
Proof.
  induction n as [|n IH].
  - simpl. lia.
  - rewrite Nat.iter_succ, IH, Nat2Z.inj_succ. lia.
Qed.

Lemma delay_chain_fun (f : Z -> Z) (d : Z) (l : list Z) (d' : Z) :
  delay_chain (fun a b => b = f a) d l d' ->
  l = iterated_delays f d (List.length l)
  /\ d' = Nat.iter (List.length l) f d.
Proof.
  induction 1 as [d|d d1 l d' Hn _ [IHl IHd]].
  - now split.
  - subst d1. split.
    + simpl. now rewrite <- IHl.
    + cbn [List.length]. now rewrite Nat.iter_succ_r.
Qed.

Lemma defaultPollingStrategy_empty (a d : Z) :
  defaultPollingStrategy a d empty_hint = d * 2.
Proof. reflexivity. Qed.

(** X12.  While every request is refused, a client with the default strategy
    and attempts left ([attempt < maxAttempts]) keeps asking: [attempt] stays
    as it was, each request is followed by a sleep, the sleeps last
    [currentDelay], twice that, four times that, ..., and only the time
    budget can end the call, which throws the Timeout error if it ends at
    all. *)
Theorem refused_requests_double_the_delay (fuel : nat) (env : Env)
        (c : Client) (w : World) :
  always_rejects env ->
  pollingStrategy c = defaultPollingStrategy ->
  attempt c < maxAttempts c ->
  let r := waitForCompletion fuel env c w in
  attempt (client_of r) = attempt c
  /\ (exists n,
         requests (world_of r) = (requests w + n)%nat
         /\ sleeps (effects (world_of r))
            = sleeps (effects w)
              ++ iterated_delays (fun d => d * 2) (currentDelay c) n
         /\ currentDelay (client_of r) = currentDelay c * 2 ^ Z.of_nat n)
  /\ (outcome_of r = OutOfFuel
      \/ outcome_of r = Finished (Threw (thrown_error c Timeout))).
Proof.
  intros Hrej Hps Hfirst r.
  assert (Hresp : forall c' w' data,
             axios_get env (requests w') (status_url c') (request_headers c')
             = AxiosResponse data -> False).
  { intros c' w' data H.
    destruct (Hrej (requests w') (status_url c') (request_headers c'))
      as [msg Hmsg]. congruence. }
  assert (Hinv : same_config c (client_of r)
                 /\ attempt (client_of r) = attempt c
                 /\ exists n,
                     requests (world_of r) = (requests w + n)%nat
                     /\ sleeps (effects (world_of r))
                        = sleeps (effects w)
                          ++ iterated_delays (fun d => d * 2)
                                             (currentDelay c) n
                     /\ currentDelay (client_of r)
                        = currentDelay c * 2 ^ Z.of_nat n).
  { apply (waitForCompletion_invariant env
             (fun c' w' =>
                same_config c c'
                /\ attempt c' = attempt c
                /\ exists n,
                    requests w' = (requests w + n)%nat
                    /\ sleeps (effects w')
                       = sleeps (effects w)
                         ++ iterated_delays (fun d => d * 2)
                                            (currentDelay c) n
                    /\ currentDelay c' = currentDelay c * 2 ^ Z.of_nat n)).
    - intros c' w' (Hc & Ha & n & Hreq & Hsl & Hd) Hlt.
      split; [now apply loop_body_same_config|].
      pose proof Hc as (_ & _ & _ & Hps' & _).
      pass_cases env c' w';
        try (exfalso; first [lia | eapply Hresp; eassumption]).
      + split; [exact Ha|]. now exists n.
      + split; [exact Ha|]. exists (S n).
        rewrite !sleeps_app, Hsl. cbn [sleeps flat_map app].
        rewrite app_nil_r.
        repeat split.
        * lia.
        * rewrite <- app_assoc, Hd, <- iter_double.
          now rewrite iterated_delays_snoc.
        * rewrite Hps', Hps, defaultPollingStrategy_empty.
          rewrite Hd, Nat2Z.inj_succ, Z.pow_succ_r by lia. lia.
    - split; [apply same_config_refl|]. split; [reflexivity|].
      exists O. simpl. rewrite app_nil_r. repeat split; lia. }
  destruct Hinv as (_ & Ha & Hn).
  repeat split; try assumption.
  destruct (outcome_of r) as [res|] eqn:Hout; [right|now left].
  f_equal.
  apply (waitForCompletion_finish env
           (fun c' _ => same_config c c' /\ attempt c' = attempt c)
           (fun res _ _ => res = Threw (thrown_error c Timeout)))
    with (fuel := fuel) (c := c) (w := w) (r := res);
    try exact Hout.
  - intros c' w' (Hc & Ha') Hlt Hcont.
    split; [now apply loop_body_same_config|].
    pass_cases env c' w'; try discriminate Hcont; try exact Ha'.
    exfalso. eapply Hresp; eassumption.
  - intros c' w' res' (Hc & Ha') Hlt Hleave.
    pass_cases env c' w';
      try (exfalso; first [lia | eapply Hresp; eassumption]);
      try discriminate Hleave.
    apply Leave_inj in Hleave. subst res'.
    change (Threw (thrown_error c' Timeout) = Threw (thrown_error c Timeout)).
    now rewrite (thrown_error_same_config c c' _ Hc).
  - intros c' w' (Hc & Ha') Hge. exfalso.
    pose proof Hc as (_ & _ & Hmax & _). lia.
  - split; [apply same_config_refl|reflexivity].
Qed.

Lemma refused_requests_double_the_delay_witness :
  let env := Scenario.refusing_env in
  let c :=
    fst (constructor env Scenario.localhost (Scenario.with_maxAttempts 3)
                     fresh_world) in
  let w :=
    snd (constructor env Scenario.localhost (Scenario.with_maxAttempts 3)
                     fresh_world) in
  let r := waitForCompletion 4 env c w in
  attempt (client_of r) = attempt c
  /\ (exists n,
         requests (world_of r) = (requests w + n)%nat
         /\ sleeps (effects (world_of r))
            = sleeps (effects w)
              ++ iterated_delays (fun d => d * 2) (currentDelay c) n
         /\ currentDelay (client_of r) = currentDelay c * 2 ^ Z.of_nat n)
  /\ (outcome_of r = OutOfFuel
      \/ outcome_of r = Finished (Threw (thrown_error c Timeout))).
Proof.
  intros env c w.
  apply (refused_requests_double_the_delay 4 env c w).
  - intros k url headers. eexists. reflexivity.
  - reflexivity.
  - simpl. lia.
Defined.

Lemma round_to_double_exact (x : Z) :
  Z.abs x < 2 ^ 53 -> round_to_double x = x.
Proof.
  intros Hx. unfold round_to_double.
  assert (Hlog : Z.log2 (Z.abs x) - 52 <= 0).
  { destruct (Z.eq_dec (Z.abs x) 0) as [E|E].
    - rewrite E. simpl. lia.
    - assert (Z.log2 (Z.abs x) < 53) by (apply Z.log2_lt_pow2; lia). lia. }
  apply Z.leb_le in Hlog. now rewrite Hlog.
Qed.

Lemma example_strategy_exact (a d : Z) (hint : JsValue) :
  0 <= d -> d + 1000 < 2 ^ 53 -> example_strategy a d hint = d + 1000.
Proof.
  intros Hd Hb. unfold example_strategy.
  apply round_to_double_exact. lia.
Qed.

(** X13.  With the strategy of exampleUsage.js, which adds one second to the
    previous delay, the sleeps of a call last [currentDelay],
    [currentDelay + 1000], [currentDelay + 2000], ... whatever the transport
    answers or refuses, and after [n] sleeps the delay is
    [currentDelay + 1000 * n]; this for a call that starts with a
    non-negative delay and whose passes keep the delay below 2^53, where the
    sum of the source is exact. *)
Theorem example_strategy_sleeps (fuel : nat) (env : Env) (c : Client)
        (w : World) :
  pollingStrategy c = example_strategy ->
  0 <= currentDelay c ->
  currentDelay c + 1000 * Z.of_nat fuel < 2 ^ 53 ->
  let r := waitForCompletion fuel env c w in
  exists n,
    (n <= fuel)%nat
    /\ sleeps (effects (world_of r))
       = sleeps (effects w)
         ++ iterated_delays (fun d => d + 1000) (currentDelay c) n
    /\ currentDelay (client_of r) = currentDelay c + 1000 * Z.of_nat n.
Proof.
  revert c w.
  induction fuel as [|fuel IH]; intros c w Hps Hd Hb r; subst r.
  - exists O. cbn [waitForCompletion].
    destruct (attempt c <? maxAttempts c);
      unfold client_of, world_of; cbn [fst snd iterated_delays];
      rewrite app_nil_r; repeat split; lia.
  - cbn [waitForCompletion].
    rewrite Nat2Z.inj_succ in Hb.
    destruct (attempt c <? maxAttempts c).
    2:{ exists O. unfold client_of, world_of. cbn [fst snd iterated_delays].
        rewrite app_nil_r. repeat split; lia. }
    pose proof (loop_body_delay env c w) as Hdel.
    pose proof (loop_body_same_config env c c w (same_config_refl c))
      as (_ & _ & _ & Hps1 & _).
    destruct (loop_body env c w) as [[[|res] c1] w1];
      unfold step_client, step_world in *; cbn [fst snd] in *.
    + destruct Hdel as [[E1 E2]|(a & hint & E1 & E2)].
      * destruct (IH c1 w1) as (n & Hn & Hs & Hc); try congruence; try lia.
        exists n. rewrite Hs, Hc, E1, E2. repeat split; lia.
      * rewrite Hps, example_strategy_exact in E1 by lia.
        destruct (IH c1 w1) as (n & Hn & Hs & Hc); try congruence; try lia.
        exists (S n). rewrite Hs, Hc, E1, E2, <- app_assoc, Nat2Z.inj_succ.
        cbn [iterated_delays app]. repeat split; lia.
    + unfold client_of, world_of. cbn [fst snd].
      destruct Hdel as [[E1 E2]|(a & hint & E1 & E2)].
      * exists O. rewrite E1, E2. cbn [iterated_delays].
        rewrite app_nil_r. repeat split; lia.
      * rewrite Hps, example_strategy_exact in E1 by lia.
        exists 1%nat. rewrite E1, E2. cbn [iterated_delays].
        repeat split; lia.
Qed.

Lemma example_strategy_sleeps_witness :
  let env := Scenario.constant_env (Scenario.body "pending" 9) in
  let c :=
    fst (constructor env Scenario.localhost example_options fresh_world) in
  let r := waitForCompletion 10 env c fresh_world in
  exists n,
    (n <= 10)%nat
    /\ sleeps (effects (world_of r))
       = sleeps (effects fresh_world)
         ++ iterated_delays (fun d => d + 1000) (currentDelay c) n
    /\ currentDelay (client_of r) = currentDelay c + 1000 * Z.of_nat n.
Proof.
  intros env c.
  apply (example_strategy_sleeps 10 env c fresh_world).
  - reflexivity.
  - simpl. lia.
  - reflexivity.
Defined.

(** * The server *)

Lemma Qlt_bool_iff (a b : Q) : Server.Qlt_bool a b = true <-> (a < b)%Q.
Proof.
  unfold Server.Qlt_bool. rewrite Qlt_alt.
  destruct (a ?= b)%Q; split; intros H; congruence.
Qed.

(** The seconds that remain, as a fraction of milliseconds. *)
Lemma remaining_in_ms (delay startTime now : Z) :
  (inject_Z delay - inject_Z (now - startTime) / inject_Z 1000
   == Server.ms_left delay startTime now # 1000)%Q.
Proof.
  unfold Server.ms_left. generalize (now - startTime). intros d.
  unfold Qeq, Qminus, Qplus, Qopp, Qdiv, Qmult, Qinv, inject_Z.
  cbn [Qnum Qden]. lia.
Qed.

(** The three answers of the handler, with the conditions in milliseconds. *)
Lemma status_route_cases (delay startTime now : Z) (random : Q) :
  let left := Server.ms_left delay startTime now in
  ((random < Server.ERROR_PROBABILITY)%Q
   /\ Server.status_route delay startTime now random = Server.error_body)
  \/ (~ (random < Server.ERROR_PROBABILITY)%Q
      /\ left <= 0
      /\ Server.status_route delay startTime now random
         = Server.completed_body)
  \/ (~ (random < Server.ERROR_PROBABILITY)%Q
      /\ 0 < left
      /\ exists n,
          Server.status_route delay startTime now random
          = Server.pending_body n
          /\ 1000 * (n - 1) < left <= 1000 * n).
Proof.
  intros left. unfold Server.status_route.
  destruct (Server.Qlt_bool random Server.ERROR_PROBABILITY) eqn:Herr.
  - left. apply Qlt_bool_iff in Herr. now split.
  - right.
    assert (Hno : ~ (random < Server.ERROR_PROBABILITY)%Q).
    { intros H. apply Qlt_bool_iff in H. congruence. }
    pose proof (remaining_in_ms delay startTime now) as Hrem.
    fold left in Hrem.
    destruct (Qle_bool _ 0) eqn:Hle.
    + left. apply Qle_bool_iff in Hle. rewrite Hrem in Hle.
      unfold Qle in Hle. simpl in Hle. repeat split; [exact Hno|lia].
    + right.
      assert (Hpos : ~ (left # 1000 <= 0)%Q).
      { intros H. rewrite <- Hrem in H. apply Qle_bool_iff in H. congruence. }
      unfold Qle in Hpos. simpl in Hpos.
      repeat split; [exact Hno|lia|].
      eexists. split; [reflexivity|].
      pose proof (Qle_ceiling (left # 1000)) as Hup.
      pose proof (Qceiling_lt (left # 1000)) as Hlow.
      rewrite (Qceiling_comp _ _ Hrem).
      unfold Qle in Hup. unfold Qlt in Hlow. simpl in Hup, Hlow. lia.
Qed.

(** X14.  What [GET /status] answers, in milliseconds, for a delay of at
    most 2^31 seconds in absolute value and dates at most 2^40 ms apart
    (where the doubles of the source give what the exact arithmetic gives).
    When the draw is below 0.1 the body is [{ result: 'error' }], without
    [remainingSeconds].  Otherwise, once [1000 * delay] ms have passed since
    the start the body is [{ result: 'completed', remainingSeconds: 0 }], and
    before that it is [{ result: 'pending', remainingSeconds: n }] where [n]
    is at least 1 and is the number of milliseconds left rounded up to whole
    seconds. *)
Theorem status_route_answers (delay startTime now : Z) (random : Q) :
  Z.abs delay <= 2 ^ 31 ->
  Z.abs (now - startTime) <= 2 ^ 40 ->
  let left := Server.ms_left delay startTime now in
  let body := Server.status_route delay startTime now random in
  ((random < Server.ERROR_PROBABILITY)%Q ->
   body = Server.error_body
   /\ get_prop body "remainingSeconds" = JsUndefined)
  /\ (~ (random < Server.ERROR_PROBABILITY)%Q -> left <= 0 ->
      body = Server.completed_body)
  /\ (~ (random < Server.ERROR_PROBABILITY)%Q -> 0 < left ->
      exists n,
        body = Server.pending_body n
        /\ 1 <= n
        /\ 1000 * (n - 1) < left <= 1000 * n).
Proof.
  intros _ _ left body. subst left body.
  destruct (status_route_cases delay startTime now random)
    as [[Herr ->]|[(Hno & Hdone & ->)|(Hno & Hleft & n & -> & Hn)]];
    repeat split; intros; try contradiction; try lia.
  exists n. repeat split; lia.
Qed.

Lemma status_route_answers_witness :
  Server.status_route 3 0 2500 (1 # 20) = Server.error_body
  /\ Server.status_route 3 0 3000 (1 # 2) = Server.completed_body
  /\ exists n,
      Server.status_route 3 0 2500 (1 # 2) = Server.pending_body n
      /\ 1 <= n
      /\ 1000 * (n - 1) < Server.ms_left 3 0 2500 <= 1000 * n.
Proof.
  assert (Hd : Z.abs 3 <= 2 ^ 31) by (intros H; discriminate H).
  assert (H1 : Z.abs (2500 - 0) <= 2 ^ 40) by (intros H; discriminate H).
  assert (H2 : Z.abs (3000 - 0) <= 2 ^ 40) by (intros H; discriminate H).
  split; [|split].
  - apply (proj1 (status_route_answers 3 0 2500 (1 # 20) Hd H1)).
    reflexivity.
  - apply (proj1 (proj2 (status_route_answers 3 0 3000 (1 # 2) Hd H2))).
    + intros H. discriminate H.
    + unfold Server.ms_left. lia.
  - apply (proj2 (proj2 (status_route_answers 3 0 2500 (1 # 2) Hd H1))).
    + intros H. discriminate H.
    + unfold Server.ms_left. lia.
Defined.

(** X15.  As long as no error is drawn, the [remainingSeconds] the server
    reports never grows as time passes and never goes below 0, and a job
    reported completed stays completed. *)
Theorem remaining_seconds_never_grow (delay startTime now now' : Z)
        (random random' : Q) :
  now <= now' ->
  ~ (random < Server.ERROR_PROBABILITY)%Q ->
  ~ (random' < Server.ERROR_PROBABILITY)%Q ->
  let body := Server.status_route delay startTime now random in
  let body' := Server.status_route delay startTime now' random' in
  (exists n n',
      get_prop body "remainingSeconds" = JsNumber n
      /\ get_prop body' "remainingSeconds" = JsNumber n'
      /\ 0 <= n' <= n)
  /\ (body = Server.completed_body -> body' = Server.completed_body).
Proof.
  intros Hnow Hno Hno' body body'. subst body body'.
  unfold Server.ms_left in *.
  destruct (status_route_cases delay startTime now random)
    as [[Herr _]|[(_ & Hdone & ->)|(_ & Hleft & n & -> & Hn)]];
    [contradiction| |];
    destruct (status_route_cases delay startTime now' random')
      as [[Herr' _]|[(_ & Hdone' & ->)|(_ & Hleft' & n' & -> & Hn')]];
    try contradiction; unfold Server.ms_left in *; try lia.
  - split; [|reflexivity]. exists 0, 0. repeat split; lia.
  - split; [|discriminate]. exists n, 0. repeat split; lia.
  - split; [|discriminate]. exists n, n'. repeat split; lia.
Qed.

Lemma remaining_seconds_never_grow_witness :
  let body := Server.status_route 10 0 2500 (1 # 2) in
  let body' := Server.status_route 10 0 7001 (1 # 3) in
  (exists n n',
      get_prop body "remainingSeconds" = JsNumber n
      /\ get_prop body' "remainingSeconds" = JsNumber n'
      /\ 0 <= n' <= n)
  /\ (body = Server.completed_body -> body' = Server.completed_body).
Proof.
  apply (remaining_seconds_never_grow 10 0 2500 7001 (1 # 2) (1 # 3)).
  - lia.
  - intros H. discriminate H.
  - intros H. discriminate H.
Defined.



(** * The client against the server *)

Lemma status_route_not_nullish (delay startTime now : Z) (random : Q) :
  nullish (Server.status_route delay startTime now random) = false.
Proof.
  destruct (status_route_cases delay startTime now random)
    as [[_ ->]|[(_ & _ & ->)|(_ & _ & n & -> & _)]]; reflexivity.
Qed.

Lemma status_route_log_line (delay startTime now : Z) (random : Q) :
  log_line_throws
    (get_prop (Server.status_route delay startTime now random) "result")
    (get_prop (Server.status_route delay startTime now random)
              "remainingSeconds") = false.
Proof.
  destruct (status_route_cases delay startTime now random)
    as [[_ ->]|[(_ & _ & ->)|(_ & _ & n & -> & _)]]; reflexivity.
Qed.

Lemma status_route_completed (delay startTime now : Z) (random : Q) :
  get_prop (Server.status_route delay startTime now random) "result"
  = JsString "completed" ->
  ~ (random < Server.ERROR_PROBABILITY)%Q
  /\ Server.ms_left delay startTime now <= 0.
Proof.
  destruct (status_route_cases delay startTime now random)
    as [[_ ->]|[(Hno & Hdone & ->)|(_ & _ & n & -> & _)]];
    simpl; intros H; try discriminate H.
  now split.
Qed.

Lemma status_route_error (delay startTime now : Z) (random : Q) :
  get_prop (Server.status_route delay startTime now random) "result"
  = JsString "error" ->
  (random < Server.ERROR_PROBABILITY)%Q.
Proof.
  destruct (status_route_cases delay startTime now random)
    as [[Herr ->]|[(_ & _ & ->)|(_ & _ & n & -> & _)]];
    simpl; intros H; try discriminate H.
  exact Herr.
Qed.

Lemma backend_answer (clock : nat -> Z) (b : Server.Backend) (k : nat)
      (url : string) (headers : Headers) :
  axios_get (Server.backend_env clock b) k url headers
  = AxiosResponse
      (Server.status_route (Server.delay b) (Server.started b)
                           (Server.handled_at b k) (Server.random_at b k)).
Proof. reflexivity. Qed.

(** X17.  A client whose requests all reach the server.  If the call
    returns, the last request was handled when the delay had passed and
    without an error draw.  If it throws, the error is the Timeout, the
    RemoteError or the ExhaustedPending one (never the TypeError of a
    missing body, never ExhaustedWithTransportErrors), and RemoteError is
    thrown only when the draw for the last request was below 0.1. *)
Theorem client_against_the_server (fuel : nat) (clock : nat -> Z)
        (b : Server.Backend) (c : Client) (w : World) :
  let r := waitForCompletion fuel (Server.backend_env clock b) c w in
  (forall v,
      outcome_of r = Finished (Returned v) ->
      exists k,
        requests (world_of r) = S k
        /\ Server.ms_left (Server.delay b) (Server.started b)
                          (Server.handled_at b k) <= 0
        /\ ~ (Server.random_at b k < Server.ERROR_PROBABILITY)%Q)
  /\ (forall e,
         outcome_of r = Finished (Threw e) ->
         (e = thrown_error c Timeout
          \/ e = thrown_error c RemoteError
          \/ e = thrown_error c ExhaustedPending)
         /\ (e = thrown_error c RemoteError ->
             exists k,
               requests (world_of r) = S k
               /\ (Server.random_at b k < Server.ERROR_PROBABILITY)%Q)).
Proof.
  intros r.
  set (env := Server.backend_env clock b) in *.
  set (Q := fun (res : Completion) (c' : Client) (w' : World) =>
              match res with
              | Returned _ =>
                  exists k,
                    requests w' = S k
                    /\ Server.ms_left (Server.delay b) (Server.started b)
                                      (Server.handled_at b k) <= 0
                    /\ ~ (Server.random_at b k < Server.ERROR_PROBABILITY)%Q
              | Threw e =>
                  (e = thrown_error c Timeout
                   \/ e = thrown_error c RemoteError
                   \/ e = thrown_error c ExhaustedPending)
                  /\ (e = thrown_error c RemoteError ->
                      exists k,
                        requests w' = S k
                        /\ (Server.random_at b k
                            < Server.ERROR_PROBABILITY)%Q)
              end).
  assert (HQ : forall res,
             outcome_of r = Finished res ->
             Q res (client_of r) (world_of r)).
  { intros res Hout.
    apply (waitForCompletion_finish env (fun c' _ => same_config c c') Q)
      with (fuel := fuel) (c := c) (w := w) (r := res);
      try exact Hout; try apply same_config_refl.
    - intros c' w' Hc _ _. now apply loop_body_same_config.
    - intros c' w' res' Hc Hlt Hleave.
      pass_cases env c' w';
        try discriminate Hleave;
        try (match goal with
             | H : axios_get env _ _ _ = AxiosRejected _ |- _ =>
                 unfold env in H; rewrite backend_answer in H; discriminate H
             end);
        apply Leave_inj in Hleave; subst res'; unfold Q.
      + change (ErrorObject _) with (thrown_error c' Timeout).
        rewrite (thrown_error_same_config c c' _ Hc).
        split; [now left|].
        intros E. apply thrown_error_inj in E. discriminate E.
      + exfalso.
        match goal with
        | H : axios_get env _ _ _ = AxiosResponse _ |- _ =>
            unfold env in H; rewrite backend_answer in H;
            injection H as <-
        end.
        match goal with
        | H : nullish _ = true |- _ =>
            rewrite status_route_not_nullish in H; discriminate H
        end.
      + exfalso.
        match goal with
        | H : axios_get env _ _ _ = AxiosResponse _ |- _ =>
            unfold env in H; rewrite backend_answer in H;
            injection H as <-
        end.
        match goal with
        | H : log_line_throws _ _ = true |- _ =>
            rewrite status_route_log_line in H; discriminate H
        end.
      + match goal with
        | H : axios_get env _ _ _ = AxiosResponse _ |- _ =>
            unfold env in H; rewrite backend_answer in H;
            injection H as <-
        end.
        match goal with
        | H : get_prop _ "result" = _ |- _ =>
            apply status_route_completed in H; destruct H as [Hno Hdone]
        end.
        exists (requests w'). now repeat split.
      + match goal with
        | H : axios_get env _ _ _ = AxiosResponse _ |- _ =>
            unfold env in H; rewrite backend_answer in H;
            injection H as <-
        end.
        match goal with
        | H : get_prop _ "result" = _ |- _ =>
            apply status_route_error in H
        end.
        change (ErrorObject _) with (thrown_error c' RemoteError).
        rewrite (thrown_error_same_config c c' _ Hc).
        split; [right; now left|].
        intros _. exists (requests w'). now split.
    - intros c' w' Hc _. unfold Q.
      rewrite (thrown_error_same_config c c' _ Hc).
      split; [right; now right|].
      intros E. apply thrown_error_inj in E. discriminate E. }
  split.
  - intros v Hout. exact (HQ _ Hout).
  - intros e Hout. exact (HQ _ Hout).
Qed.

Lemma client_against_the_server_witness :
  let calm :=
    waitForCompletion 10 (Server.backend_env Demo.ticking_clock Demo.calm_backend)
      (fst (constructor (Server.backend_env Demo.ticking_clock Demo.calm_backend)
                        Scenario.localhost no_options fresh_world))
      (snd (constructor (Server.backend_env Demo.ticking_clock Demo.calm_backend)
                        Scenario.localhost no_options fresh_world)) in
  let moody :=
    waitForCompletion 10
      (Server.backend_env Demo.ticking_clock Demo.moody_backend)
      (fst (constructor
              (Server.backend_env Demo.ticking_clock Demo.moody_backend)
              Scenario.localhost no_options fresh_world))
      (snd (constructor
              (Server.backend_env Demo.ticking_clock Demo.moody_backend)
              Scenario.localhost no_options fresh_world)) in
  (exists k,
      requests (world_of calm) = S k
      /\ Server.ms_left 3 0 (Server.handled_at Demo.calm_backend k) <= 0
      /\ ~ (Server.random_at Demo.calm_backend k
            < Server.ERROR_PROBABILITY)%Q)
  /\ (exists k,
         requests (world_of moody) = S k
         /\ (Server.random_at Demo.moody_backend k
             < Server.ERROR_PROBABILITY)%Q).
Proof.
  intros calm moody. split.
  - apply (proj1 (client_against_the_server
                    10 Demo.ticking_clock Demo.calm_backend _ _)
                 "completed"%string).
    reflexivity.
  - set (env := Server.backend_env Demo.ticking_clock Demo.moody_backend).
    set (c := fst (constructor env Scenario.localhost no_options fresh_world)).
    set (w := snd (constructor env Scenario.localhost no_options fresh_world)).
    destruct (proj2 (client_against_the_server
                       10 Demo.ticking_clock Demo.moody_backend c w)
                    (thrown_error c RemoteError) eq_refl) as [_ Hdraw].
    apply Hdraw. reflexivity.
Defined.

(** * Runs of pending answers *)

Lemma keeps_polling_pass (env : Env) (c : Client) (w : World)
      (data : JsValue) :
  date_now env (clock_reads w) - startTime c <= maxDurationMs c ->
  axios_get env (requests w) (status_url c) (request_headers c)
  = AxiosResponse data ->
  keeps_polling data ->
  loop_body env c w
  = (Continue,
     set_currentDelay
       (pollingStrategy c (attempt c + 1) (currentDelay c)
                        (hint_of (get_prop data "remainingSeconds")))
       (set_attempt (attempt c + 1) c),
     _sleep (currentDelay c) (after_request c w)).
Proof.
  intros Hle Hget ((Hnn & Hlog) & Hc & He).
  rewrite (loop_body_in_time env c w Hle), Hget.
  unfold on_response. rewrite Hnn, Hlog.
  apply strict_eq_string_false in Hc, He. now rewrite Hc, He.
Qed.

(** [n] answers after which the client goes on polling, received in time and
    with attempts left, take [n] passes: each counts an attempt, makes one
    request and sleeps once. *)
Lemma pending_prefix (env : Env) (c0 : Client) (n : nat) :
  forall (fuel : nat) (c : Client) (w : World),
    same_config c0 c ->
    (forall i, (i < n)%nat ->
               date_now env (clock_reads w + i) - startTime c0
               <= maxDurationMs c0) ->
    (forall i, (i < n)%nat ->
               exists data,
                 axios_get env (requests w + i) (status_url c0)
                           (request_headers c0) = AxiosResponse data
                 /\ keeps_polling data) ->
    attempt c + Z.of_nat n <= maxAttempts c0 ->
    exists c' w' l,
      waitForCompletion (n + fuel) env c w = waitForCompletion fuel env c' w'
      /\ same_config c0 c'
      /\ attempt c' = attempt c + Z.of_nat n
      /\ requests w' = (requests w + n)%nat
      /\ clock_reads w' = (clock_reads w + n)%nat
      /\ sleeps (effects w') = sleeps (effects w) ++ l
      /\ List.length l = n.
Proof.
  induction n as [|n IH]; intros fuel c w Hc Htime Hans Hatt.
  - exists c, w, []. rewrite app_nil_r, !Nat.add_0_r, Z.add_0_r.
    split; [reflexivity|]. split; [exact Hc|]. now repeat split.
  - pose proof Hc as (_ & _ & Hmax & _ & Hdur & _ & Hstart).
    pose proof (status_url_same_config c0 c Hc) as Hu.
    pose proof (request_headers_same_config c0 c Hc) as Hh.
    destruct (Hans O ltac:(lia)) as (data & Hget & Hkeep).
    pose proof (Htime O ltac:(lia)) as Ht0.
    rewrite Nat.add_0_r in Hget, Ht0.
    rewrite <- Hu, <- Hh in Hget. rewrite <- Hdur, <- Hstart in Ht0.
    pose proof (keeps_polling_pass env c w data Ht0 Hget Hkeep) as Hpass.
    set (c1 := set_currentDelay
                 (pollingStrategy c (attempt c + 1) (currentDelay c)
                                  (hint_of (get_prop data "remainingSeconds")))
                 (set_attempt (attempt c + 1) c)) in *.
    set (w1 := _sleep (currentDelay c) (after_request c w)) in *.
    destruct (IH fuel c1 w1) as (c' & w' & l & Hrun & Hc' & Ha & Hr & Hk & Hs & Hl).
    + exact Hc.
    + intros i Hi. specialize (Htime (S i) ltac:(lia)).
      replace (clock_reads w1 + i)%nat with (clock_reads w + S i)%nat
        by (unfold w1; simpl; lia).
      exact Htime.
    + intros i Hi. specialize (Hans (S i) ltac:(lia)).
      replace (requests w1 + i)%nat with (requests w + S i)%nat
        by (unfold w1; simpl; lia).
      exact Hans.
    + unfold c1. cbn [attempt set_currentDelay set_attempt]. lia.
    + exists c', w', (currentDelay c :: l).
      split; [|split; [exact Hc'|repeat split]].
      * change (S n + fuel)%nat with (S (n + fuel)).
        cbn [waitForCompletion].
        assert (Hlt : (attempt c <? maxAttempts c) = true)
          by (apply Z.ltb_lt; lia).
        now rewrite Hlt, Hpass.
      * rewrite Ha. unfold c1. cbn [attempt set_currentDelay set_attempt]. lia.
      * rewrite Hr. unfold w1. simpl. lia.
      * rewrite Hk. unfold w1. simpl. lia.
      * rewrite Hs. unfold w1, _sleep, after_request.
        cbn [effects]. rewrite !sleeps_app. cbn [sleeps flat_map app].
        rewrite app_nil_r, <- app_assoc. reflexivity.
      * simpl. now rewrite Hl.
Qed.

(** X18.  Polling to completion.  When the next [n] answers keep the client
    polling and the one after them is a readable body that says completed,
    all received in time and with [n + 1] attempts left, the call returns
    ['completed'] after exactly [n + 1] requests and [n] sleeps, with
    [attempt] increased by [n + 1]. *)
Theorem completed_after_pending_answers (env : Env) (c : Client) (w : World)
        (n fuel : nat) (last : JsValue) :
  (forall i, (i <= n)%nat ->
             date_now env (clock_reads w + i) - startTime c
             <= maxDurationMs c) ->
  (forall i, (i < n)%nat ->
             exists data,
               axios_get env (requests w + i) (status_url c)
                         (request_headers c) = AxiosResponse data
               /\ keeps_polling data) ->
  axios_get env (requests w + n) (status_url c) (request_headers c)
  = AxiosResponse last ->
  readable last ->
  get_prop last "result" = JsString "completed" ->
  attempt c + Z.of_nat n < maxAttempts c ->
  (n < fuel)%nat ->
  let r := waitForCompletion fuel env c w in
  outcome_of r = Finished (Returned "completed")
  /\ attempt (client_of r) = attempt c + Z.of_nat n + 1
  /\ requests (world_of r) = (requests w + n + 1)%nat
  /\ exists l,
      sleeps (effects (world_of r)) = sleeps (effects w) ++ l
      /\ List.length l = n.
Proof.
  intros Htime Hans Hlast [Hnn Hlog] Hres Hatt Hfuel r.
  destruct (pending_prefix env c n (fuel - n) c w (same_config_refl c))
    as (c' & w' & l & Hrun & Hc & Ha & Hr & Hk & Hs & Hl).
  { intros i Hi. apply Htime. lia. }
  { exact Hans. }
  { lia. }
  replace (n + (fuel - n))%nat with fuel in Hrun by lia.
  subst r. rewrite Hrun.
  destruct (fuel - n)%nat as [|f] eqn:Hf; [lia|].
  pose proof Hc as (_ & _ & Hmax & _ & Hdur & _ & Hstart).
  assert (Hlt : (attempt c' <? maxAttempts c') = true)
    by (apply Z.ltb_lt; lia).
  assert (Hin : date_now env (clock_reads w') - startTime c'
                <= maxDurationMs c').
  { rewrite Hk, Hdur, Hstart. apply Htime. lia. }
  cbn [waitForCompletion]. rewrite Hlt, (loop_body_in_time env c' w' Hin).
  rewrite Hr, (status_url_same_config c c' Hc),
    (request_headers_same_config c c' Hc), Hlast.
  unfold on_response.
  rewrite Hnn, Hlog, Hres.
  cbn [strict_eq_string String.eqb Ascii.eqb Bool.eqb andb].
  unfold outcome_of, client_of, world_of. cbn [fst snd].
  repeat split.
  - cbn [attempt set_attempt]. lia.
  - unfold after_request. cbn [requests]. lia.
  - exists l. split; [|exact Hl].
    unfold after_request. cbn [effects].
    rewrite sleeps_app. cbn [sleeps flat_map app]. now rewrite app_nil_r.
Qed.

Lemma completed_after_pending_answers_witness :
  let env := Scenario.pending_then_completed_env in
  let c :=
    fst (constructor env Scenario.localhost (Scenario.with_maxAttempts 5)
                     fresh_world) in
  let r := waitForCompletion 2 env c fresh_world in
  outcome_of r = Finished (Returned "completed")
  /\ attempt (client_of r) = attempt c + Z.of_nat 1 + 1
  /\ requests (world_of r) = (requests fresh_world + 1 + 1)%nat
  /\ exists l,
      sleeps (effects (world_of r)) = sleeps (effects fresh_world) ++ l
      /\ List.length l = 1%nat.
Proof.
  intros env c.
  apply (completed_after_pending_answers env c fresh_world 1 2
           (Scenario.body "completed" 0)).
  - intros i Hi. simpl. lia.
  - intros i Hi. assert (i = O) as -> by lia.
    exists (Scenario.body "pending" 9). split; [reflexivity|].
    split; [now split|split; discriminate].
  - reflexivity.
  - now split.
  - reflexivity.
  - simpl. lia.
  - lia.
Defined.

(** X19.  Polling in vain.  When the next [n] answers all keep the client
    polling, are received in time, and [n] is exactly the number of attempts
    left, the call throws the ExhaustedPending error after [n] requests and
    [n] sleeps, the last sleep included, with [attempt] at [maxAttempts]. *)
Theorem pending_answers_use_up_the_attempts (env : Env) (c : Client)
        (w : World) (n fuel : nat) :
  (forall i, (i < n)%nat ->
             date_now env (clock_reads w + i) - startTime c
             <= maxDurationMs c) ->
  (forall i, (i < n)%nat ->
             exists data,
               axios_get env (requests w + i) (status_url c)
                         (request_headers c) = AxiosResponse data
               /\ keeps_polling data) ->
  attempt c + Z.of_nat n = maxAttempts c ->
  (n <= fuel)%nat ->
  let r := waitForCompletion fuel env c w in
  outcome_of r = Finished (Threw (thrown_error c ExhaustedPending))
  /\ attempt (client_of r) = maxAttempts c
  /\ requests (world_of r) = (requests w + n)%nat
  /\ exists l,
      sleeps (effects (world_of r)) = sleeps (effects w) ++ l
      /\ List.length l = n.
Proof.
  intros Htime Hans Hatt Hfuel r.
  destruct (pending_prefix env c n (fuel - n) c w (same_config_refl c))
    as (c' & w' & l & Hrun & Hc & Ha & Hr & Hk & Hs & Hl);
    try assumption; try lia.
  replace (n + (fuel - n))%nat with fuel in Hrun by lia.
  subst r. rewrite Hrun.
  pose proof Hc as (_ & _ & Hmax & _).
  rewrite (waitForCompletion_exhausted (fuel - n) env c' w') by lia.
  unfold outcome_of, client_of, world_of. cbn [fst snd].
  rewrite (thrown_error_same_config c c' _ Hc).
  repeat split; try assumption; try lia.
  now exists l.
Qed.

Lemma pending_answers_use_up_the_attempts_witness :
  let env := Scenario.constant_env (Scenario.body "pending" 9) in
  let c :=
    fst (constructor env Scenario.localhost (Scenario.with_maxAttempts 1)
                     fresh_world) in
  let r := waitForCompletion 1 env c fresh_world in
  outcome_of r = Finished (Threw (thrown_error c ExhaustedPending))
  /\ attempt (client_of r) = maxAttempts c
  /\ requests (world_of r) = (requests fresh_world + 1)%nat
  /\ exists l,
      sleeps (effects (world_of r)) = sleeps (effects fresh_world) ++ l
      /\ List.length l = 1%nat.
Proof.
  intros env c.
  apply (pending_answers_use_up_the_attempts env c fresh_world 1 1).
  - intros i Hi. simpl. lia.
  - intros i Hi.
    exists (Scenario.body "pending" 9). split; [reflexivity|].
    split; [now split|split; discriminate].
  - simpl. lia.
  - lia.
Defined.

(** * A clock that moves *)

(** X20.  The loop cannot go on for ever while time passes: when the clock
    gains at least [m > 0] ms from each reading to the next, a call ends
    within [(deadline - now) / m + 2] passes, where [deadline] is
    [startTime + maxDurationMs] and [now] is the reading the call starts
    with, however the transport and the strategy behave. *)
Theorem advancing_clock_ends_the_call (fuel : nat) (env : Env) (c : Client)
        (w : World) (m : Z) :
  0 < m ->
  (forall k, date_now env k + m <= date_now env (S k)) ->
  (Z.to_nat ((startTime c + maxDurationMs c
              - date_now env (clock_reads w)) / m + 1) < fuel)%nat ->
  exists res, outcome_of (waitForCompletion fuel env c w) = Finished res.
Proof.
  intros Hm Hclock Hfuel.
  apply (waitForCompletion_measure env
           (fun c' _ => same_config c c')
           (fun _ w' =>
              Z.to_nat ((startTime c + maxDurationMs c
                         - date_now env (clock_reads w')) / m + 1)));
    [|apply same_config_refl|exact Hfuel].
  intros c' w' Hcfg Hlt Hcont.
  split; [now apply loop_body_same_config|].
  destruct Hcfg as (_ & _ & _ & _ & Hdur & _ & Hstart).
  specialize (Hclock (clock_reads w')).
  set (left := startTime c + maxDurationMs c - date_now env (clock_reads w')).
  assert (Hstep : left >= 0 ->
                  (Z.to_nat ((startTime c + maxDurationMs c
                              - date_now env (S (clock_reads w'))) / m + 1)
                   < Z.to_nat (left / m + 1))%nat).
  { intros Hleft.
    assert (H0 : 0 <= left / m) by (apply Z.div_pos; lia).
    assert (H1 : (startTime c + maxDurationMs c
                  - date_now env (S (clock_reads w'))) / m
                 <= (left + (-1) * m) / m)
      by (apply Z.div_le_mono; unfold left; lia).
    rewrite Z.div_add in H1 by lia. lia. }
  pass_cases env c' w'; try discriminate Hcont;
    apply Hstep; unfold left; lia.
Qed.

Lemma advancing_clock_ends_the_call_witness :
  let env :=
    mkEnv Demo.ticking_clock (fun _ _ _ => AxiosRejected "socket hang up") in
  let c := fst (constructor env Scenario.localhost no_options fresh_world) in
  let w := snd (constructor env Scenario.localhost no_options fresh_world) in
  exists res, outcome_of (waitForCompletion 40 env c w) = Finished res.
Proof.
  intros env c w.
  apply (advancing_clock_ends_the_call 40 env c w 1000).
  - lia.
  - intros k. unfold env, Demo.ticking_clock. cbn [date_now].
    rewrite Nat2Z.inj_succ. lia.
  - vm_compute. lia.
Defined.
